(** * Citation resolution (eyecite/resolve.py)

    A shallow embedding of the resolution pass of eyecite: the antecedent
    matcher, the four default per-type resolvers and the left-to-right
    driver [resolve_citations], followed by the properties the
    specification states about them. *)

From Stdlib Require Import Ascii String.
From stdpp Require Import base decidable option list strings gmap.

Set Default Proof Using "Type".
Local Open Scope string_scope.
Local Open Scope list_scope.

(** ** Python strings *)

Module PyStr.

(** [needle in hay] on Python strings: plain, case-sensitive substring
    test. *)
Fixpoint contains (needle hay : string) : bool :=
  String.prefix needle hay ||
  match hay with
  | EmptyString => false
  | String _ hay' => contains needle hay'
  end.

(** Truthiness of an [Optional[str]]: [None] and the empty string are
    falsy. *)
Definition truthy (o : option string) : bool :=
  match o with
  | Some (String _ _) => true
  | _ => false
  end.

(** Declarative reading of the substring test. *)
Definition Substring (needle hay : string) : Prop :=
  ∃ pre post, hay = pre +:+ needle +:+ post.

(** Characters of Python's [string.punctuation]. *)
Definition is_punct (a : ascii) : bool :=
  let n := nat_of_ascii a in
  (((33 <=? n) && (n <=? 47)) || ((58 <=? n) && (n <=? 64)) ||
   ((91 <=? n) && (n <=? 96)) || ((123 <=? n) && (n <=? 126)))%nat.

Fixpoint lstrip (s : string) : string :=
  match s with
  | String a s' => if is_punct a then lstrip s' else s
  | EmptyString => EmptyString
  end.

Fixpoint rstrip (s : string) : string :=
  match s with
  | String a s' =>
      match rstrip s' with
      | EmptyString => if is_punct a then EmptyString else String a EmptyString
      | t => String a t
      end
  | EmptyString => EmptyString
  end.

(** Modelled from the spec: eyecite.utils.strip_punct lives outside
    resolve.py; the specification describes it as stripping the punctuation
    that surrounds the guess (trailing commas, periods, quotation marks).
    The development below is parametric in the stripping function; this
    instance is used for the concrete runs. *)
Definition strip_punct (s : string) : string := rstrip (lstrip s).

End PyStr.

(** ** Data model (eyecite.models) *)

(** Fields shared by every citation object: the source span, the parsed
    token groups (raw matched text, keyed by group name), the normalised
    reporter returned by [corrected_reporter()], and a metadata record
    whose shape depends on the citation class. *)
Record Cite (M : Type) : Type := mkCite {
  span : nat * nat;
  groups : gmap string string;
  reporter : string;
  pin_cite : option string;
  parenthetical : option string;
  year : option string;
  metadata : M
}.
Arguments mkCite {M}.
Arguments span {M}.
Arguments groups {M}.
Arguments reporter {M}.
Arguments pin_cite {M}.
Arguments parenthetical {M}.
Arguments year {M}.
Arguments metadata {M}.

Record CaseMetadata : Type := mkCaseMetadata {
  plaintiff : option string;
  defendant : option string;
  court : option string
}.

Record LawMetadata : Type := mkLawMetadata {
  publisher : option string
}.

Record ShortMetadata : Type := mkShortMetadata {
  antecedent_guess : option string
}.

Definition FullCaseCitation : Type := Cite CaseMetadata.
Definition ShortCaseCitation : Type := Cite ShortMetadata.
Definition SupraCitation : Type := Cite ShortMetadata.
Definition IdCitation : Type := Cite unit.

(** [FullCitation] and its subclasses: only the case subclass has
    [plaintiff] and [defendant] metadata. *)
Inductive FullCitation : Type :=
| FullCase (c : FullCaseCitation)
| FullLaw (c : Cite LawMetadata)
| FullJournal (c : Cite unit).

(** [CitationBase]: the classes the driver dispatches on; [Other] stands
    for every citation that is none of the four families. *)
Inductive CitationBase : Type :=
| Full (f : FullCitation)
| ShortCase (s : ShortCaseCitation)
| Supra (s : SupraCitation)
| Id (i : IdCitation)
| Other (o : Cite unit).

Definition corrected_reporter {M} (c : Cite M) : string := reporter c.

#[global] Instance CaseMetadata_eq_dec : EqDecision CaseMetadata.
Proof. solve_decision. Defined.
#[global] Instance LawMetadata_eq_dec : EqDecision LawMetadata.
Proof. solve_decision. Defined.
#[global] Instance ShortMetadata_eq_dec : EqDecision ShortMetadata.
Proof. solve_decision. Defined.
#[global] Instance Cite_eq_dec {M} `{EqDecision M} : EqDecision (Cite M).
Proof. solve_decision. Defined.
#[global] Instance FullCitation_eq_dec : EqDecision FullCitation.
Proof. solve_decision. Defined.
#[global] Instance CitationBase_eq_dec : EqDecision CitationBase.
Proof. solve_decision. Defined.

(** [ResourceType]: hashable values compared with [==]; [resource_truthy]
    is Python's [bool(r)]. *)
Class ResourceType (R : Type) : Type := {
  resource_eq_dec :: EqDecision R;
  resource_truthy : R → bool
}.

(** Modelled from the spec: eyecite.models.Resource lives outside
    resolve.py; the specification describes the default resource as a
    wrapper holding exactly one Full mention, equal only to itself.
    Mentions are values here (their span included), so two wrappers are
    equal exactly when they wrap the same mention.  An instance of a plain
    class is truthy. *)
Record Resource : Type := mkResource { citation : FullCitation }.

#[global] Instance Resource_eq_dec : EqDecision Resource.
Proof. solve_decision. Defined.

#[global] Instance Resource_ResourceType : ResourceType Resource :=
  {| resource_truthy := λ _, true |}.

(** Integer identifiers as resources, as a caller with its own store would
    use them: [0] is falsy. *)
#[global] Instance nat_ResourceType : ResourceType nat :=
  {| resource_truthy := λ n, negb (n =? 0)%nat |}.

(** ** Insertion-ordered dictionaries *)

Module Dict.
Section dict.
Context {K V : Type} `{EqDecision K}.

Fixpoint get (k : K) (d : list (K * V)) : option V :=
  match d with
  | [] => None
  | (k', v) :: d' => if decide (k' = k) then Some v else get k d'
  end.

(** [d[k] = v]: an existing key keeps its place, a new one goes last. *)
Fixpoint set (k : K) (v : V) (d : list (K * V)) : list (K * V) :=
  match d with
  | [] => [(k, v)]
  | (k', v') :: d' =>
      if decide (k' = k) then (k', v) :: d' else (k', v') :: set k v d'
  end.

Definition keys (d : list (K * V)) : list K := d.*1.
End dict.
End Dict.

(** ** The resolvers *)

Section Resolvers.
Context {R : Type} `{!ResourceType R}.

(** [eyecite.utils.strip_punct], a parameter of the development. *)
Variable strip_punct : string → string.

(** [field and ag in field] for an optional metadata field. *)
Definition field_has (ag : string) (field : option string) : bool :=
  match field with
  | Some text => PyStr.truthy field && PyStr.contains ag text
  | None => false
  end.

(** The body of the matching loop: the resources appended to [matches],
    in candidate order. *)
Fixpoint antecedent_matches (ag : string)
    (resolved_full_cites : list (FullCitation * R)) : list R :=
  match resolved_full_cites with
  | [] => []
  | (full_citation, resource) :: rest =>
      match full_citation with
      | FullCase c =>
          if field_has ag (defendant (metadata c)) then
            resource :: antecedent_matches ag rest
          else if field_has ag (plaintiff (metadata c)) then
            resource :: antecedent_matches ag rest
          else antecedent_matches ag rest
      | _ => antecedent_matches ag rest   (* not a FullCaseCitation: continue *)
      end
  end.

(** [matches[0] if len(matches) == 1 else None] *)
Definition only_one (matches : list R) : option R :=
  match matches with
  | [resource] => Some resource
  | _ => None
  end.

Definition _filter_by_matching_antecedent
    (resolved_full_cites : list (FullCitation * R))
    (antecedent_guess : string) : option R :=
  let ag := strip_punct antecedent_guess in
  let matches := antecedent_matches ag resolved_full_cites in
  (* Remove duplicates and only accept if one candidate remains *)
  only_one (remove_dups matches).

(** The candidates kept by the short-form resolver. *)
Fixpoint shortcase_candidates (short_citation : ShortCaseCitation)
    (items : list (FullCitation * R)) : list (FullCitation * R) :=
  match items with
  | [] => []
  | (full_citation, resource) :: rest =>
      match full_citation with
      | FullCase c =>
          if bool_decide (corrected_reporter short_citation = corrected_reporter c)
             && bool_decide (groups short_citation !! "volume" = groups c !! "volume")
          then (full_citation, resource) :: shortcase_candidates short_citation rest
          else shortcase_candidates short_citation rest
      | _ => shortcase_candidates short_citation rest
      end
  end.

Definition _resolve_shortcase_citation (short_citation : ShortCaseCitation)
    (resolved_full_cites : list (FullCitation * R)) : option R :=
  let candidates := shortcase_candidates short_citation resolved_full_cites in
  (* Remove duplicates and only accept if one candidate remains *)
  if (length (remove_dups (candidates.*2)) =? 1)%nat then
    snd <$> head candidates
  (* Otherwise, if there is an antecedent guess, try to refine further *)
  else
    match antecedent_guess (metadata short_citation) with
    | Some guess =>
        if PyStr.truthy (Some guess)
        then _filter_by_matching_antecedent candidates guess
        else None
    | None => None
    end.

Definition _resolve_supra_citation (supra_citation : SupraCitation)
    (resolved_full_cites : list (FullCitation * R)) : option R :=
  match antecedent_guess (metadata supra_citation) with
  | Some guess =>
      if negb (PyStr.truthy (Some guess)) then None
      else _filter_by_matching_antecedent resolved_full_cites guess
  | None => None
  end.

Definition _resolve_id_citation (id_citation : IdCitation)
    (last_resolution : option R) : option R :=
  last_resolution.

(** ** The driver *)

(** The four resolver slots of [resolve_citations]. *)
Record Resolvers : Type := mkResolvers {
  resolve_full : FullCitation → R;
  resolve_shortcase : ShortCaseCitation → list (FullCitation * R) → option R;
  resolve_supra : SupraCitation → list (FullCitation * R) → option R;
  resolve_id : IdCitation → option R → option R
}.

(** The three pieces of running state of one call. *)
Record EngineState : Type := mkState {
  resolutions : list (R * list CitationBase);
  resolved_full_cites : list (FullCitation * R);
  last_resolution : option R
}.

Definition initial_state : EngineState :=
  {| resolutions := []; resolved_full_cites := []; last_resolution := None |}.

(** [if resolution:] *)
Definition is_truthy (resolution : option R) : bool :=
  match resolution with
  | Some r => resource_truthy r
  | None => false
  end.

(** [resolutions[resolution].append(citation)] on a [defaultdict(list)]. *)
Definition record_citation (resource : R) (citation : CitationBase)
    (d : list (R * list CitationBase)) : list (R * list CitationBase) :=
  Dict.set resource (default [] (Dict.get resource d) ++ [citation]) d.

(** The dispatch on the class of [citation]: the value assigned to
    [resolution] and the table of full citations after the branch. *)
Definition dispatch (rs : Resolvers) (st : EngineState)
    (citation : CitationBase) : option R * list (FullCitation * R) :=
  match citation with
  | Full f =>
      let resolution := resolve_full rs f in
      (Some resolution, Dict.set f resolution (resolved_full_cites st))
  | ShortCase s =>
      (resolve_shortcase rs s (resolved_full_cites st), resolved_full_cites st)
  | Supra s =>
      (resolve_supra rs s (resolved_full_cites st), resolved_full_cites st)
  | Id i =>
      (resolve_id rs i (last_resolution st), resolved_full_cites st)
  | Other _ =>
      (None, resolved_full_cites st)
  end.

(** One iteration of the loop over [citations]. *)
Definition loop_body (rs : Resolvers) (st : EngineState)
    (citation : CitationBase) : EngineState :=
  let '(resolution, full_cites) := dispatch rs st citation in
  {| resolutions :=
       match resolution with
       | Some resource =>
           if is_truthy resolution
           then record_citation resource citation (resolutions st)
           else resolutions st
       | None => resolutions st
       end;
     resolved_full_cites := full_cites;
     last_resolution := resolution |}.

Definition run (rs : Resolvers) (st : EngineState)
    (citations : list CitationBase) : EngineState :=
  foldl (loop_body rs) st citations.

Definition resolve_citations (rs : Resolvers)
    (citations : list CitationBase) : list (R * list CitationBase) :=
  resolutions (run rs initial_state citations).

(** The value of the local [resolution] at each iteration, in order. *)
Fixpoint resolution_log (rs : Resolvers) (st : EngineState)
    (citations : list CitationBase) : list (option R) :=
  match citations with
  | [] => []
  | citation :: rest =>
      let st' := loop_body rs st citation in
      last_resolution st' :: resolution_log rs st' rest
  end.

(** The resource a mention is recorded under, if any. *)
Definition outcome (resolution : option R) : option R :=
  if is_truthy resolution then resolution else None.

(** [resolutions[r]] read back from the returned [defaultdict]. *)
Definition group (resource : R) (d : list (R * list CitationBase))
    : list CitationBase :=
  default [] (Dict.get resource d).

Definition with_defaults (full : FullCitation → R) : Resolvers :=
  {| resolve_full := full;
     resolve_shortcase := _resolve_shortcase_citation;
     resolve_supra := _resolve_supra_citation;
     resolve_id := _resolve_id_citation |}.

End Resolvers.

Arguments Resolvers R : clear implicits.
Arguments EngineState R : clear implicits.

Definition resolve_full_citation (full_citation : FullCitation) : Resource :=
  mkResource full_citation.

(** The default arguments of [resolve_citations]. *)
Definition default_resolvers (strip_punct : string → string) : Resolvers Resource :=
  with_defaults strip_punct resolve_full_citation.

(** ** Sample mentions *)

Module Samples.

Definition cite {M} (at_ : nat) (rep : string) (vol : option string) (m : M)
    : Cite M :=
  {| span := (at_, at_ + 1);
     groups := match vol with
               | Some v => {[ "volume" := v ]}
               | None => ∅
               end;
     reporter := rep; pin_cite := None; parenthetical := None; year := None;
     metadata := m |}.

Definition case_citation (at_ : nat) (rep vol : string)
    (pl df : option string) : FullCitation :=
  FullCase (cite at_ rep (Some vol)
              {| plaintiff := pl; defendant := df; court := None |}).

Definition law_citation (at_ : nat) (rep : string) : FullCitation :=
  FullLaw (cite at_ rep None {| publisher := None |}).

Definition short_citation (at_ : nat) (rep vol : string)
    (guess : option string) : CitationBase :=
  ShortCase (cite at_ rep (Some vol) {| antecedent_guess := guess |}).

Definition supra_citation (at_ : nat) (guess : option string) : CitationBase :=
  Supra (cite at_ EmptyString None {| antecedent_guess := guess |}).

Definition id_citation (at_ : nat) : CitationBase :=
  Id (cite at_ EmptyString None ()).

Definition nonopinion_citation (at_ : nat) : CitationBase :=
  Other (cite at_ EmptyString None ()).

Definition defaults : Resolvers Resource := default_resolvers PyStr.strip_punct.

Definition lissner : FullCitation :=
  case_citation 0 "U.S." "1" (Some "Lissner") (Some "Test").
Definition foo_bar : FullCitation :=
  case_citation 0 "U.S." "1" (Some "Foo") (Some "Bar").
Definition smith_a : FullCitation :=
  case_citation 0 "U.S." "1" (Some "Jones") (Some "Smith").
Definition smith_b : FullCitation :=
  case_citation 1 "F.2d" "2" (Some "Brown") (Some "Smith").
Definition same_a : FullCitation :=
  case_citation 0 "U.S." "1" None None.
Definition same_b : FullCitation :=
  case_citation 1 "U.S." "1" None None.

End Samples.

(** ** The matcher with Python's dynamic checks made explicit

    Reading [metadata.defendant] off a citation that is not a
    [FullCaseCitation] raises [AttributeError]; [ag in None] raises
    [TypeError].  [Checked.antecedent_matches] follows the loop of
    [_filter_by_matching_antecedent] statement by statement with these
    failures possible. *)

Module Checked.

Inductive PyError : Type := AttributeError | TypeError.

Inductive PyResult (A : Type) : Type :=
| Ok (a : A)
| Raise (e : PyError).
Arguments Ok {A}.
Arguments Raise {A}.

Definition bind {A B} (m : PyResult A) (k : A → PyResult B) : PyResult B :=
  match m with
  | Ok a => k a
  | Raise e => Raise e
  end.

Notation "x ←? m ; k" := (bind m (λ x, k))
  (at level 20, m at level 100, k at level 200, right associativity).

Definition isinstance_FullCaseCitation (f : FullCitation) : bool :=
  match f with
  | FullCase _ => true
  | _ => false
  end.

Definition get_defendant (f : FullCitation) : PyResult (option string) :=
  match f with
  | FullCase c => Ok (defendant (metadata c))
  | _ => Raise AttributeError
  end.

Definition get_plaintiff (f : FullCitation) : PyResult (option string) :=
  match f with
  | FullCase c => Ok (plaintiff (metadata c))
  | _ => Raise AttributeError
  end.

(** [ag in field] *)
Definition py_in (ag : string) (field : option string) : PyResult bool :=
  match field with
  | Some text => Ok (PyStr.contains ag text)
  | None => Raise TypeError
  end.

(** [field and ag in field]: the right operand is evaluated only when
    the left one is truthy. *)
Definition and_in (ag : string) (field : option string) : PyResult bool :=
  if PyStr.truthy field then py_in ag field else Ok false.

Fixpoint antecedent_matches {R : Type} (ag : string)
    (resolved_full_cites : list (FullCitation * R)) : PyResult (list R) :=
  match resolved_full_cites with
  | [] => Ok []
  | (full_citation, resource) :: rest =>
      if negb (isinstance_FullCaseCitation full_citation) then
        antecedent_matches ag rest
      else
        d ←? get_defendant full_citation;
        in_d ←? and_in ag d;
        if in_d then
          tl ←? antecedent_matches ag rest; Ok (resource :: tl)
        else
          p ←? get_plaintiff full_citation;
          in_p ←? and_in ag p;
          if in_p then
            tl ←? antecedent_matches ag rest; Ok (resource :: tl)
          else antecedent_matches ag rest
  end.

Definition _filter_by_matching_antecedent {R : Type} `{!ResourceType R}
    (strip_punct : string → string)
    (resolved_full_cites : list (FullCitation * R))
    (antecedent_guess : string) : PyResult (option R) :=
  let ag := strip_punct antecedent_guess in
  matches ←? antecedent_matches ag resolved_full_cites;
  Ok (only_one (remove_dups matches)).

End Checked.

(** ** The specification's vocabulary *)

(** A metadata field contains the guess: the field is present, not empty,
    and the guess is a substring of it. *)
Definition field_contains (ag : string) (field : option string) : Prop :=
  ∃ text, field = Some text ∧ text ≠ EmptyString ∧ PyStr.Substring ag text.

(** A candidate matches a (stripped) guess. *)
Definition Matches (ag : string) (f : FullCitation) : Prop :=
  ∃ c, f = FullCase c ∧
       (field_contains ag (defendant (metadata c)) ∨
        field_contains ag (plaintiff (metadata c))).

(** Exactly one distinct resource among the pairs that satisfy [P]. *)
Definition OneResource {R : Type} (P : FullCitation → Prop)
    (pairs : list (FullCitation * R)) (r : R) : Prop :=
  (∃ f, (f, r) ∈ pairs ∧ P f) ∧
  (∀ f' r', (f', r') ∈ pairs → P f' → r' = r).

(** The filter of the short-form resolver. *)
Definition short_filter_keeps (s : ShortCaseCitation) (f : FullCitation) : Prop :=
  ∃ c, f = FullCase c ∧
       corrected_reporter s = corrected_reporter c ∧
       groups s !! "volume" = groups c !! "volume".

(** An antecedent guess is present. *)
Definition guess_present (o : option string) (g : string) : Prop :=
  o = Some g ∧ g ≠ EmptyString.

Definition is_Id (c : CitationBase) : bool :=
  match c with
  | Id _ => true
  | _ => false
  end.

(** The length of the unbroken run of Id mentions at the head of [cs]. *)
Fixpoint leading_ids (cs : list CitationBase) : nat :=
  match cs with
  | Id _ :: cs' => S (leading_ids cs')
  | _ => 0
  end.

(** The mentions, in order, whose recorded outcome is [r]. *)
Fixpoint resolved_to {R : Type} `{!ResourceType R} (r : R)
    (cs : list CitationBase) (log : list (option R)) : list CitationBase :=
  match cs, log with
  | c :: cs', res :: log' =>
      if decide (outcome res = Some r) then c :: resolved_to r cs' log'
      else resolved_to r cs' log'
  | _, _ => []
  end.

(** A well-formed grouping: keys are distinct and no key holds an empty
    list. *)
Definition grouping_wf {R : Type} `{!ResourceType R}
    (d : list (R * list CitationBase)) : Prop :=
  NoDup (Dict.keys d) ∧ ∀ r, Dict.get r d ≠ Some [].

(** [l] without repetitions, every element kept where it first occurs (the
    order in which a Python dictionary holds keys that are set in the order
    of [l]). *)
Definition first_occurrences {A : Type} `{EqDecision A} (l : list A) : list A :=
  reverse (remove_dups (reverse l)).

(** The Full mentions of an input, in order. *)
Definition full_citations (cs : list CitationBase) : list FullCitation :=
  omap (λ c, match c with Full f => Some f | _ => None end) cs.

(** Every non-empty list of the grouping starts with a Full mention that
    the full resolver maps to the key of the list, and the truthy resources
    of the table and of the last resolution have a non-empty list. *)
Definition anchored {R : Type} `{!ResourceType R} (full : FullCitation → R)
    (st : EngineState R) : Prop :=
  (∀ r, group r (resolutions st) ≠ [] →
        ∃ f, head (group r (resolutions st)) = Some (Full f) ∧ full f = r)
  ∧ (∀ f r, (f, r) ∈ resolved_full_cites st → resource_truthy r = true →
            group r (resolutions st) ≠ [])
  ∧ (∀ r, last_resolution st = Some r → resource_truthy r = true →
          group r (resolutions st) ≠ []).

(** * Properties *)

(** ** Strings *)

Lemma append_cons (x : ascii) (a b : string) :
  String x a +:+ b = String x (a +:+ b).
Proof. reflexivity. Qed.

Lemma append_empty_l (b : string) : EmptyString +:+ b = b.
Proof. reflexivity. Qed.

Lemma prefix_true_iff (a s : string) :
  String.prefix a s = true ↔ ∃ post, s = a +:+ post.
Proof.
  revert s. induction a as [|x a IH]; intros s.
  - split; [intros _; by exists s | by destruct s].
  - destruct s as [|y s]; simpl.
    + split; [done | intros [post Hp]; discriminate].
    + setoid_rewrite append_cons.
      destruct (ascii_dec x y) as [->|Hne].
      * rewrite IH. split; intros [post Hp]; exists post; congruence.
      * split; [done | intros [post Hp]; congruence].
Qed.

Lemma contains_Substring (a s : string) :
  PyStr.contains a s = true ↔ PyStr.Substring a s.
Proof.
  unfold PyStr.Substring. induction s as [|y s IH]; cbn [PyStr.contains].
  - rewrite orb_false_r, prefix_true_iff. split.
    + intros [post Hp]. by exists EmptyString, post.
    + intros [[|z pre] [post Hp]]; [by exists post | discriminate].
  - rewrite orb_true_iff, prefix_true_iff, IH. split.
    + intros [[post Hp]|(pre & post & Hp)].
      * by exists EmptyString, post.
      * exists (String y pre), post. by rewrite append_cons, Hp.
    + intros ([|z pre] & post & Hp).
      * left. by exists post.
      * right. exists pre, post. rewrite append_cons in Hp. congruence.
Qed.

Lemma Substring_refl (s : string) : PyStr.Substring s s.
Proof.
  exists EmptyString, EmptyString. rewrite append_empty_l.
  induction s as [|y s IH]; [done|]. by rewrite append_cons, <- IH.
Qed.

Lemma Substring_nonempty (a s : string) :
  PyStr.Substring a s → a ≠ EmptyString → s ≠ EmptyString.
Proof.
  intros ([|z pre] & post & ->) Ha.
  - rewrite append_empty_l. destruct a; [done|]. by rewrite append_cons.
  - by rewrite append_cons.
Qed.

(** ** Dictionaries *)

Section dict_facts.
Context {K V : Type} `{EqDecision K}.
Implicit Types (k : K) (v : V) (d : list (K * V)).

Lemma get_set k k' v d :
  Dict.get k (Dict.set k' v d) = if decide (k' = k) then Some v else Dict.get k d.
Proof.
  induction d as [|[k0 v0] d IH]; simpl.
  - by repeat case_decide.
  - repeat (case_decide; simpl; simplify_eq); try done.
    all: by rewrite IH, ?decide_True, ?decide_False by done.
Qed.

Lemma get_set_eq k v d : Dict.get k (Dict.set k v d) = Some v.
Proof. by rewrite get_set, decide_True. Qed.

Lemma get_set_ne k k' v d : k' ≠ k → Dict.get k (Dict.set k' v d) = Dict.get k d.
Proof. intros. by rewrite get_set, decide_False. Qed.

Lemma get_Some_elem_of k v d : Dict.get k d = Some v → (k, v) ∈ d.
Proof.
  induction d as [|[k0 v0] d IH]; simpl; [done|].
  case_decide; intros; simplify_eq; [left | right; auto].
Qed.

Lemma get_None_keys k d : Dict.get k d = None ↔ k ∉ Dict.keys d.
Proof.
  unfold Dict.keys. induction d as [|[k0 v0] d IH]; simpl.
  - split; [intros _; apply not_elem_of_nil | done].
  - rewrite not_elem_of_cons. case_decide; simplify_eq.
    + split; [done | intros []; done].
    + rewrite IH. intuition.
Qed.

Lemma elem_of_get k v d : NoDup (Dict.keys d) → (k, v) ∈ d → Dict.get k d = Some v.
Proof.
  unfold Dict.keys. induction d as [|[k0 v0] d IH]; simpl.
  - intros _ ?%elem_of_nil. done.
  - rewrite NoDup_cons. intros [Hk Hd] [?|Hin]%elem_of_cons; simplify_eq.
    + by rewrite decide_True.
    + case_decide; simplify_eq; [|auto].
      destruct Hk. apply list_elem_of_fmap. by exists (k, v).
Qed.

Lemma keys_set k v d :
  Dict.keys (Dict.set k v d) =
  if decide (k ∈ Dict.keys d) then Dict.keys d else Dict.keys d ++ [k].
Proof.
  unfold Dict.keys. induction d as [|[k0 v0] d IH]; [done|].
  cbn [Dict.set]. destruct (decide (k0 = k)) as [->|Hne]; rewrite !fmap_cons.
  - rewrite decide_True by left. done.
  - rewrite IH. cbn [fst]. destruct (decide (k ∈ d.*1)).
    + rewrite decide_True by (by right). done.
    + rewrite decide_False; [done|]. intros [?|?]%elem_of_cons; done.
Qed.

Lemma NoDup_keys_set k v d :
  NoDup (Dict.keys d) → NoDup (Dict.keys (Dict.set k v d)).
Proof.
  intros Hd. rewrite keys_set. case_decide; [done|].
  apply NoDup_app. split_and!; [done | | apply NoDup_singleton].
  intros x Hx ->%list_elem_of_singleton. done.
Qed.

End dict_facts.

(** ** The antecedent matcher and the default resolvers *)

Section resolver_facts.
Context {R : Type} `{!ResourceType R}.
Variable strip_punct : string → string.
Implicit Types (r : R) (f : FullCitation) (pairs : list (FullCitation * R)).

Lemma truthy_Some_iff (text : string) :
  PyStr.truthy (Some text) = true ↔ text ≠ EmptyString.
Proof. destruct text; simpl; split; done. Qed.

Lemma field_has_iff (ag : string) (field : option string) :
  field_has ag field = true ↔ field_contains ag field.
Proof.
  unfold field_has, field_contains. destruct field as [text|].
  - rewrite andb_true_iff, truthy_Some_iff, contains_Substring. split.
    + intros [? ?]. by exists text.
    + intros (? & [= <-] & ? & ?). done.
  - split; [done | intros (? & ? & _); done].
Qed.

Lemma elem_of_antecedent_matches (ag : string) pairs r :
  r ∈ antecedent_matches ag pairs ↔ ∃ f, (f, r) ∈ pairs ∧ Matches ag f.
Proof.
  induction pairs as [|[f0 r0] pairs IH]; cbn [antecedent_matches].
  - split; [intros []%elem_of_nil | intros (? & []%elem_of_nil & _)].
  - assert (Hstep : (r = r0 ∧ Matches ag f0) ∨ r ∈ antecedent_matches ag pairs
                    ↔ ∃ f, (f, r) ∈ (f0, r0) :: pairs ∧ Matches ag f).
    { rewrite IH. split.
      - intros [[-> ?]|(f & ? & ?)]; [exists f0 | exists f]; split; try done.
        + left.
        + by right.
      - intros (f & [?|?]%elem_of_cons & ?); simplify_eq; [by left|].
        right. by exists f. }
    rewrite <- Hstep. clear Hstep IH.
    destruct f0 as [c| |].
    + unfold Matches.
      destruct (field_has ag (defendant (metadata c))) eqn:Hd;
        [|destruct (field_has ag (plaintiff (metadata c))) eqn:Hp].
      * apply field_has_iff in Hd. rewrite elem_of_cons.
        split; [intros [->|?]; [left|by right] | intros [[-> _]|?]; [by left|by right]].
        split; [done|]. exists c. split; [done | by left].
      * apply field_has_iff in Hp. rewrite elem_of_cons.
        split; [intros [->|?]; [left|by right] | intros [[-> _]|?]; [by left|by right]].
        split; [done|]. exists c. split; [done | by right].
      * split; [by right|]. intros [[_ (c' & [= <-] & [Hc|Hc])]|?]; [| |done].
        -- apply field_has_iff in Hc. congruence.
        -- apply field_has_iff in Hc. congruence.
    + split; [by right | intros [[_ (? & ? & _)]|?]; done].
    + split; [by right | intros [[_ (? & ? & _)]|?]; done].
Qed.

Lemma NoDup_all_same (l : list R) r :
  NoDup l → r ∈ l → (∀ r', r' ∈ l → r' = r) → l = [r].
Proof.
  intros Hnd Hin Hall. destruct l as [|a [|b l]].
  - by apply elem_of_nil in Hin.
  - f_equal. apply Hall. left.
  - apply NoDup_cons in Hnd as [Hnotin _]. destruct Hnotin.
    rewrite (Hall a) by left. rewrite <- (Hall b) at 1 by (right; left). left.
Qed.

Lemma only_one_Some (l : list R) r : only_one l = Some r ↔ l = [r].
Proof.
  destruct l as [|a [|b l]]; simpl; split; intros; simplify_eq; done.
Qed.

Lemma remove_dups_singleton (l : list R) r :
  remove_dups l = [r] ↔ r ∈ l ∧ ∀ r', r' ∈ l → r' = r.
Proof.
  split.
  - intros Hl. split.
    + apply elem_of_remove_dups. rewrite Hl. left.
    + intros r' Hr'%elem_of_remove_dups. rewrite Hl in Hr'.
      by apply list_elem_of_singleton in Hr'.
  - intros [Hin Hall]. apply NoDup_all_same.
    + apply NoDup_remove_dups.
    + by apply elem_of_remove_dups.
    + intros r' Hr'. rewrite elem_of_remove_dups in Hr'. by apply Hall.
Qed.

Lemma length_one_iff (l : list R) :
  (length l =? 1)%nat = true ↔ ∃ r, l = [r].
Proof.
  destruct l as [|a [|b l]]; simpl; split; try done.
  - intros [? ?]; done.
  - intros _. by exists a.
  - intros [? ?]; done.
Qed.

(** The matcher resolves to [r] exactly when [r] is the one distinct
    resource among the matching candidates. *)
Lemma filter_by_matching_antecedent_Some pairs (guess : string) r :
  _filter_by_matching_antecedent strip_punct pairs guess = Some r ↔
  OneResource (Matches (strip_punct guess)) pairs r.
Proof.
  unfold _filter_by_matching_antecedent, OneResource.
  rewrite only_one_Some, remove_dups_singleton, elem_of_antecedent_matches.
  split; intros [Hex Hall]; (split; [done|]).
  - intros f' r' ? ?. apply Hall, elem_of_antecedent_matches. eauto.
  - intros r' (f' & ? & ?)%elem_of_antecedent_matches. eauto.
Qed.

(** Two matching candidates with distinct resources: unresolved. *)
Lemma filter_by_matching_antecedent_ambiguous pairs (guess : string) f1 f2 r1 r2 :
  (f1, r1) ∈ pairs → (f2, r2) ∈ pairs → r1 ≠ r2 →
  Matches (strip_punct guess) f1 → Matches (strip_punct guess) f2 →
  _filter_by_matching_antecedent strip_punct pairs guess = None.
Proof.
  intros H1 H2 Hne M1 M2.
  destruct (_filter_by_matching_antecedent strip_punct pairs guess) as [r|] eqn:E;
    [|done].
  apply filter_by_matching_antecedent_Some in E as [_ Hall].
  destruct Hne. by rewrite (Hall f1 r1), (Hall f2 r2).
Qed.

Lemma elem_of_shortcase_candidates (s : ShortCaseCitation) pairs f r :
  (f, r) ∈ shortcase_candidates s pairs ↔
  (f, r) ∈ pairs ∧ short_filter_keeps s f.
Proof.
  unfold short_filter_keeps.
  induction pairs as [|[f0 r0] pairs IH]; cbn [shortcase_candidates].
  - split; [intros []%elem_of_nil | intros [[]%elem_of_nil _]].
  - destruct f0 as [c| |].
    + destruct (bool_decide (corrected_reporter s = corrected_reporter c)
                && bool_decide (groups s !! "volume" = groups c !! "volume")) eqn:E.
      * apply andb_true_iff in E as [E1%bool_decide_eq_true E2%bool_decide_eq_true].
        rewrite !elem_of_cons, IH. split.
        -- intros [?|[? ?]]; simplify_eq; [|by auto].
           split; [by left | by exists c].
        -- intros [[?|?] ?]; auto.
      * rewrite elem_of_cons, IH. split; [intros [? ?]; auto|].
        intros [[?|?] (c' & ? & E1 & E2)]; [exfalso|by eauto]. simplify_eq.
        rewrite !bool_decide_eq_true_2 in E by done. done.
    + rewrite elem_of_cons, IH.
      split; [intros [? ?]; auto|].
      intros [[?|?] (c' & ? & ?)]; [by simplify_eq | by eauto].
    + rewrite elem_of_cons, IH.
      split; [intros [? ?]; auto|].
      intros [[?|?] (c' & ? & ?)]; [by simplify_eq | by eauto].
Qed.

Lemma shortcase_candidates_sublist (s : ShortCaseCitation) pairs :
  sublist (shortcase_candidates s pairs) pairs.
Proof.
  induction pairs as [|[f0 r0] pairs IH]; cbn [shortcase_candidates]; [done|].
  destruct f0; [case_match|..]; by constructor.
Qed.

End resolver_facts.

(** ** The driver *)

Section engine_facts.
Context {R : Type} `{!ResourceType R}.
Variable rs : Resolvers R.
Implicit Types (r : R) (f : FullCitation) (c : CitationBase)
  (cs xs ys : list CitationBase) (st : EngineState R).

Lemma run_app st xs ys : run rs st (xs ++ ys) = run rs (run rs st xs) ys.
Proof. apply foldl_app. Qed.

Lemma run_cons st c cs : run rs st (c :: cs) = run rs (loop_body rs st c) cs.
Proof. done. Qed.

Lemma run_snoc st xs c : run rs st (xs ++ [c]) = loop_body rs (run rs st xs) c.
Proof. by rewrite run_app. Qed.

Lemma log_app st xs ys :
  resolution_log rs st (xs ++ ys) =
  resolution_log rs st xs ++ resolution_log rs (run rs st xs) ys.
Proof.
  revert st. induction xs as [|x xs IH]; intros st; [done|].
  cbn [app resolution_log]. by rewrite IH.
Qed.

Lemma length_log st cs : length (resolution_log rs st cs) = length cs.
Proof.
  revert st. induction cs as [|c cs IH]; intros st; [done|].
  cbn [resolution_log length]. by rewrite IH.
Qed.

Lemma loop_body_last st c :
  last_resolution (loop_body rs st c) = (dispatch rs st c).1.
Proof. unfold loop_body. by destruct (dispatch rs st c). Qed.

Lemma loop_body_table st c :
  resolved_full_cites (loop_body rs st c) = (dispatch rs st c).2.
Proof. unfold loop_body. by destruct (dispatch rs st c). Qed.

Lemma loop_body_resolutions st c :
  resolutions (loop_body rs st c) =
  match outcome (dispatch rs st c).1 with
  | Some r => record_citation r c (resolutions st)
  | None => resolutions st
  end.
Proof.
  unfold loop_body, outcome. destruct (dispatch rs st c) as [[r|] tbl]; [|done].
  cbn [fst resolutions]. by destruct (is_truthy (Some r)).
Qed.

(** The entry of the log at a position is what the loop body computes
    there, from the state reached on the mentions before it. *)
Lemma log_lookup st cs i c :
  cs !! i = Some c →
  resolution_log rs st cs !! i = Some (dispatch rs (run rs st (take i cs)) c).1.
Proof.
  revert st i. induction cs as [|c0 cs IH]; intros st i Hi; [done|].
  destruct i as [|i]; cbn [resolution_log].
  - injection Hi as ->. cbn. by rewrite loop_body_last.
  - cbn in Hi. cbn [take]. rewrite run_cons. cbn. by apply IH.
Qed.

Lemma log_lookup_last st cs i c :
  cs !! i = Some c →
  resolution_log rs st cs !! i = Some (last_resolution (run rs st (take (S i) cs))).
Proof.
  intros Hi. rewrite (log_lookup _ _ _ _ Hi).
  rewrite (take_S_r _ _ _ Hi), run_snoc. by rewrite loop_body_last.
Qed.

(** *** The table of full citations *)

Lemma table_run_get st cs f :
  Dict.get f (resolved_full_cites (run rs st cs)) =
  if decide (Full f ∈ cs) then Some (resolve_full rs f)
  else Dict.get f (resolved_full_cites st).
Proof.
  revert st. induction cs as [|c cs IH] using rev_ind; intros st.
  - cbn. rewrite decide_False; [done | apply not_elem_of_nil].
  - rewrite run_snoc, loop_body_table.
    destruct (decide (c = Full f)) as [->|Hne].
    + cbn. rewrite get_set_eq, decide_True; [done|].
      apply elem_of_app. right. left.
    + assert (Dict.get f (dispatch rs (run rs st cs) c).2 =
              Dict.get f (resolved_full_cites (run rs st cs))) as ->.
      { destruct c; cbn; try done. apply get_set_ne. congruence. }
      rewrite IH. destruct (decide (Full f ∈ cs)).
      * rewrite decide_True; [done|]. apply elem_of_app. by left.
      * rewrite decide_False; [done|].
        intros [?|?%list_elem_of_singleton]%elem_of_app; done.
Qed.

Lemma table_run_NoDup st cs :
  NoDup (Dict.keys (resolved_full_cites st)) →
  NoDup (Dict.keys (resolved_full_cites (run rs st cs))).
Proof.
  revert st. induction cs as [|c cs IH]; intros st Hst; [done|].
  rewrite run_cons. apply IH. rewrite loop_body_table.
  destruct c; cbn; try done. by apply NoDup_keys_set.
Qed.

Lemma table_initial_elem_of cs f r :
  (f, r) ∈ resolved_full_cites (run rs initial_state cs) ↔
  Full f ∈ cs ∧ r = resolve_full rs f.
Proof.
  assert (Hnd : NoDup (Dict.keys (resolved_full_cites (run rs initial_state cs)))).
  { apply table_run_NoDup. cbn. apply NoDup_nil_2. }
  pose proof (table_run_get initial_state cs f) as Hget. split.
  - intros Hin. apply (elem_of_get _ _ _ Hnd) in Hin.
    rewrite Hin in Hget. case_decide; [|done]. split; congruence.
  - intros [Hin ->]. apply get_Some_elem_of.
    by rewrite Hget, decide_True.
Qed.

End engine_facts.

(** ** The output grouping *)

Section grouping_facts.
Context {R : Type} `{!ResourceType R}.
Implicit Types (r : R) (c : CitationBase) (cs xs ys : list CitationBase)
  (d : list (R * list CitationBase)) (log : list (option R)).

Lemma group_record r r' c d :
  group r (record_citation r' c d) =
  if decide (r' = r) then group r d ++ [c] else group r d.
Proof.
  unfold group, record_citation. rewrite get_set.
  by destruct (decide (r' = r)) as [->|].
Qed.

Lemma grouping_wf_nil : grouping_wf [].
Proof. split; [apply NoDup_nil_2 | done]. Qed.

Lemma grouping_wf_record r c d :
  grouping_wf d → grouping_wf (record_citation r c d).
Proof.
  intros [Hnd Hne]. split; [by apply NoDup_keys_set|].
  intros r'. unfold record_citation. rewrite get_set.
  case_decide; [|done]. intros [= Heq]. by apply app_nil in Heq as [_ ?].
Qed.

Lemma grouping_wf_elem_of r l d :
  grouping_wf d → ((r, l) ∈ d ↔ l = group r d ∧ l ≠ []).
Proof.
  intros [Hnd Hne]. unfold group. split.
  - intros Hin%(elem_of_get _ _ _ Hnd). rewrite Hin. split; [done|].
    intros ->. by apply (Hne r).
  - intros [-> Hl]. apply get_Some_elem_of.
    by destruct (Dict.get r d).
Qed.

Lemma sum_lengths_set r (v : list CitationBase) d :
  sum_list (length <$> (Dict.set r v d).*2) + length (default [] (Dict.get r d)) =
  sum_list (length <$> d.*2) + length v.
Proof.
  induction d as [|[r0 l0] d IH]; cbn [Dict.set Dict.get].
  - cbn. lia.
  - destruct (decide (r0 = r)) as [->|]; cbn in *; lia.
Qed.

Lemma sum_lengths_record r c d :
  sum_list (length <$> (record_citation r c d).*2) =
  S (sum_list (length <$> d.*2)).
Proof.
  unfold record_citation.
  pose proof (sum_lengths_set r (default [] (Dict.get r d) ++ [c]) d) as Hs.
  rewrite length_app in Hs. cbn in Hs. lia.
Qed.

Lemma resolved_to_sublist r cs log : sublist (resolved_to r cs log) cs.
Proof.
  revert log. induction cs as [|c cs IH]; intros [|res log]; cbn;
    try done; try apply sublist_nil_l.
  case_decide; by constructor.
Qed.

Lemma elem_of_resolved_to r cs log c :
  c ∈ resolved_to r cs log ↔
  ∃ i res, cs !! i = Some c ∧ log !! i = Some res ∧ outcome res = Some r.
Proof.
  revert log. induction cs as [|c0 cs IH]; intros [|res0 log]; cbn [resolved_to].
  1-3: split; [intros []%elem_of_nil | intros (i & res & ? & ? & _); by destruct i].
  assert (Hshift : (c = c0 ∧ outcome res0 = Some r) ∨
      (∃ i res, cs !! i = Some c ∧ log !! i = Some res ∧ outcome res = Some r) ↔
      ∃ i res, (c0 :: cs) !! i = Some c ∧ (res0 :: log) !! i = Some res ∧
               outcome res = Some r).
  { split.
    - intros [[-> ?]|(i & res & ? & ? & ?)]; [by exists 0, res0 | by exists (S i), res].
    - intros ([|i] & res & Hc & Hl & ?); cbn in Hc, Hl; simplify_eq;
        [by left | right; by exists i, res]. }
  rewrite <- Hshift, <- IH. case_decide.
  - rewrite elem_of_cons. split; [intros [->|?]; auto | intros [[-> _]|?]; auto].
  - split; [auto | intros [[_ ?]|?]; done].
Qed.

Lemma resolved_to_app r xs ys lx ly :
  length xs = length lx →
  resolved_to r (xs ++ ys) (lx ++ ly) = resolved_to r xs lx ++ resolved_to r ys ly.
Proof.
  revert lx. induction xs as [|x xs IH]; intros [|res lx] Hlen; try done.
  cbn [app resolved_to]. injection Hlen as Hlen.
  case_decide; by rewrite IH.
Qed.

Variable rs : Resolvers R.
Implicit Types st : EngineState R.

Lemma run_grouping_wf st cs :
  grouping_wf (resolutions st) → grouping_wf (resolutions (run rs st cs)).
Proof.
  revert st. induction cs as [|c cs IH]; intros st Hst; [done|].
  rewrite run_cons. apply IH. rewrite loop_body_resolutions.
  destruct (outcome _); [by apply grouping_wf_record | done].
Qed.

(** Every list of the grouping grows by exactly the mentions whose
    outcome is its resource, in input order. *)
Lemma group_run st cs r :
  group r (resolutions (run rs st cs)) =
  group r (resolutions st) ++ resolved_to r cs (resolution_log rs st cs).
Proof.
  revert st. induction cs as [|c cs IH]; intros st.
  - cbn. by rewrite app_nil_r.
  - rewrite run_cons, IH. cbn [resolution_log resolved_to].
    rewrite loop_body_resolutions, loop_body_last.
    destruct (outcome (dispatch rs st c).1) as [r'|] eqn:Hout.
    + rewrite group_record.
      destruct (decide (r' = r)) as [->|Hne].
      * rewrite decide_True by done. by rewrite <- app_assoc.
      * rewrite decide_False; [done | congruence].
    + by rewrite decide_False.
Qed.

Lemma sum_lengths_run st cs :
  sum_list (length <$> (resolutions (run rs st cs)).*2) =
  sum_list (length <$> (resolutions st).*2) +
  length (omap outcome (resolution_log rs st cs)).
Proof.
  revert st. induction cs as [|c cs IH]; intros st.
  - cbn. lia.
  - rewrite run_cons, IH. cbn [resolution_log].
    rewrite loop_body_resolutions, loop_body_last.
    unfold omap. cbn [list_omap]. fold (omap (M:=list) (@outcome R _)).
    destruct (outcome (dispatch rs st c).1) as [r'|] eqn:Hout.
    + rewrite sum_lengths_record. cbn [length]. lia.
    + done.
Qed.

Lemma resolve_citations_wf cs : grouping_wf (resolve_citations rs cs).
Proof. apply run_grouping_wf, grouping_wf_nil. Qed.

(** The entries of the returned dictionary. *)
Lemma resolve_citations_entry cs r (l : list CitationBase) :
  (r, l) ∈ resolve_citations rs cs ↔
  l = resolved_to r cs (resolution_log rs initial_state cs) ∧ l ≠ [].
Proof.
  rewrite (grouping_wf_elem_of r l _ (resolve_citations_wf cs)).
  unfold resolve_citations. by rewrite group_run.
Qed.

(** With distinct mentions, membership in a list of the grouping is the
    outcome logged at the position of the mention. *)
Lemma elem_of_group_NoDup cs i c r :
  NoDup cs → cs !! i = Some c →
  (c ∈ group r (resolve_citations rs cs) ↔
   outcome <$> resolution_log rs initial_state cs !! i = Some (Some r)).
Proof.
  intros Hnd Hi. unfold resolve_citations. rewrite group_run. cbn [group app].
  change (default [] (Dict.get r (resolutions initial_state))) with (@nil CitationBase).
  rewrite app_nil_l, elem_of_resolved_to. split.
  - intros (j & res & Hj & Hl & Ho).
    assert (i = j) as -> by by eapply NoDup_lookup.
    by rewrite Hl, <- Ho.
  - destruct (resolution_log rs initial_state cs !! i) as [res|] eqn:Hl; [|done].
    intros [= Ho]. by exists i, res.
Qed.

End grouping_facts.

(** ** What a resolution depends on *)

Section view_facts.
Context {R : Type} `{!ResourceType R}.
Variable rs : Resolvers R.
Implicit Types (c : CitationBase) (cs ys : list CitationBase)
  (st : EngineState R).

Lemma dispatch_same_view st1 st2 c :
  resolved_full_cites st1 = resolved_full_cites st2 →
  last_resolution st1 = last_resolution st2 →
  dispatch rs st1 c = dispatch rs st2 c.
Proof. intros Ht Hl. destruct c; cbn; by rewrite ?Ht, ?Hl. Qed.

Lemma dispatch_not_Id st1 st2 c :
  is_Id c = false →
  resolved_full_cites st1 = resolved_full_cites st2 →
  dispatch rs st1 c = dispatch rs st2 c.
Proof. intros Hc Ht. destruct c; cbn; try done; by rewrite Ht. Qed.

Lemma dispatch_Id_table st i :
  (dispatch rs st (Id i)).2 = resolved_full_cites st.
Proof. done. Qed.

(** The log is a function of the table and of the last resolution. *)
Lemma log_same_view st1 st2 cs :
  resolved_full_cites st1 = resolved_full_cites st2 →
  last_resolution st1 = last_resolution st2 →
  resolution_log rs st1 cs = resolution_log rs st2 cs.
Proof.
  revert st1 st2. induction cs as [|c cs IH]; intros st1 st2 Ht Hl; [done|].
  cbn [resolution_log].
  pose proof (dispatch_same_view st1 st2 c Ht Hl) as Hd.
  rewrite !loop_body_last, Hd. f_equal.
  apply IH; by rewrite ?loop_body_table, ?loop_body_last, Hd.
Qed.

(** When the first mention is not an Id mention, the table alone decides. *)
Lemma log_table_only st1 st2 cs :
  leading_ids cs = 0 →
  resolved_full_cites st1 = resolved_full_cites st2 →
  resolution_log rs st1 cs = resolution_log rs st2 cs.
Proof.
  intros Hn Ht. destruct cs as [|c cs]; [done|].
  assert (is_Id c = false) as Hc by by destruct c.
  cbn [resolution_log].
  pose proof (dispatch_not_Id st1 st2 c Hc Ht) as Hd.
  rewrite !loop_body_last, Hd. f_equal.
  apply log_same_view; by rewrite ?loop_body_table, ?loop_body_last, Hd.
Qed.

Lemma resolutions_table_only st1 st2 cs :
  leading_ids cs = 0 →
  resolutions st1 = resolutions st2 →
  resolved_full_cites st1 = resolved_full_cites st2 →
  resolutions (run rs st1 cs) = resolutions (run rs st2 cs).
Proof.
  intros Hn Hr Ht. destruct cs as [|c cs]; [done|].
  assert (is_Id c = false) as Hc by by destruct c.
  rewrite !run_cons. f_equal. unfold loop_body.
  by rewrite (dispatch_not_Id st1 st2 c Hc Ht), Hr.
Qed.

(** After a failed mention, the Id mentions that follow it in an
    unbroken run fail with it; from the first mention of another kind
    on, nothing depends on the failure. *)
Lemma log_after_failure st1 st2 ys :
  resolve_id rs = _resolve_id_citation →
  resolved_full_cites st1 = resolved_full_cites st2 →
  last_resolution st1 = None →
  resolution_log rs st1 ys =
  replicate (leading_ids ys) None ++
  drop (leading_ids ys) (resolution_log rs st2 ys).
Proof.
  intros Hid. revert st1 st2.
  induction ys as [|c ys IH]; intros st1 st2 Ht Hl; [done|].
  destruct (is_Id c) eqn:Hc.
  - destruct c as [| | |i|]; try done. cbn [leading_ids resolution_log].
    rewrite loop_body_last. cbn [dispatch fst]. rewrite Hid, Hl.
    cbn [replicate app drop _resolve_id_citation]. f_equal.
    apply IH.
    + by rewrite !loop_body_table.
    + rewrite loop_body_last. cbn. by rewrite Hid.
  - assert (leading_ids (c :: ys) = 0) as Hn by by destruct c.
    rewrite Hn. cbn [replicate app drop]. by apply log_table_only.
Qed.

End view_facts.

(** ** The default resolvers in the driver *)

Section default_facts.
Context {R : Type} `{!ResourceType R}.
Variable strip_punct : string → string.
Implicit Types (r : R) (f : FullCitation) (pairs : list (FullCitation * R))
  (s : ShortCaseCitation).

Lemma length_remove_dups_one (l : list R) :
  (length (remove_dups l) =? 1)%nat = true ↔
  ∃ r, r ∈ l ∧ ∀ r', r' ∈ l → r' = r.
Proof.
  rewrite length_one_iff. by setoid_rewrite remove_dups_singleton.
Qed.

Lemma OneResource_any pairs r :
  OneResource (λ _, True) pairs r ↔
  r ∈ pairs.*2 ∧ ∀ r', r' ∈ pairs.*2 → r' = r.
Proof.
  unfold OneResource. rewrite list_elem_of_fmap. split.
  - intros [(f & Hin & _) Hall]. split; [by exists (f, r)|].
    intros r' ([f' r''] & -> & Hin')%list_elem_of_fmap. by eapply Hall.
  - intros [([f r0] & -> & Hin) Hall]. split; [by exists f|].
    intros f' r' Hin' _. apply Hall, list_elem_of_fmap. by exists (f', r').
Qed.

(** Step 2 of the short-form resolver. *)
Lemma shortcase_unique s pairs r :
  OneResource (λ _, True) (shortcase_candidates s pairs) r →
  _resolve_shortcase_citation strip_punct s pairs = Some r.
Proof.
  intros Hone. unfold _resolve_shortcase_citation.
  pose proof Hone as [Hin Hall]%OneResource_any.
  rewrite (proj2 (length_remove_dups_one _)) by by exists r.
  destruct (shortcase_candidates s pairs) as [|[f0 r0] cands].
  - by apply elem_of_nil in Hin.
  - cbn. f_equal. apply Hall. left.
Qed.

(** Steps 3 and 4 of the short-form resolver. *)
Lemma shortcase_not_unique s pairs :
  (¬ ∃ r, OneResource (λ _, True) (shortcase_candidates s pairs) r) →
  _resolve_shortcase_citation strip_punct s pairs =
  match antecedent_guess (metadata s) with
  | Some guess =>
      if PyStr.truthy (Some guess)
      then _filter_by_matching_antecedent strip_punct
             (shortcase_candidates s pairs) guess
      else None
  | None => None
  end.
Proof.
  intros Hnone. unfold _resolve_shortcase_citation.
  destruct (length (remove_dups (shortcase_candidates s pairs).*2) =? 1)%nat
    eqn:Hlen; [|done].
  destruct Hnone. apply length_remove_dups_one in Hlen as [r Hr].
  exists r. by apply OneResource_any.
Qed.

Lemma Matches_FullCase ag f : Matches ag f → ∃ c, f = FullCase c.
Proof. intros (c & -> & _). by exists c. Qed.

Lemma supra_Some_case (s : SupraCitation) pairs r :
  _resolve_supra_citation strip_punct s pairs = Some r →
  ∃ c, (FullCase c, r) ∈ pairs.
Proof.
  unfold _resolve_supra_citation.
  destruct (antecedent_guess (metadata s)) as [g|]; [|done].
  destruct (negb (PyStr.truthy (Some g))); [done|].
  intros [(f & Hin & [c ->]%Matches_FullCase) _]%filter_by_matching_antecedent_Some.
  by exists c.
Qed.

Lemma shortcase_Some_case s pairs r :
  _resolve_shortcase_citation strip_punct s pairs = Some r →
  ∃ c, (FullCase c, r) ∈ pairs.
Proof.
  unfold _resolve_shortcase_citation.
  destruct (length (remove_dups (shortcase_candidates s pairs).*2) =? 1)%nat.
  - destruct (shortcase_candidates s pairs) as [|[f0 r0] cands] eqn:Hc; [done|].
    intros [= <-].
    assert ((f0, r0) ∈ shortcase_candidates s pairs) as Hin by (rewrite Hc; left).
    apply elem_of_shortcase_candidates in Hin as [Hin (c & -> & _)]. by exists c.
  - destruct (antecedent_guess (metadata s)) as [g|]; [|done].
    destruct (PyStr.truthy (Some g)); [|done].
    intros [(f & Hin & [c ->]%Matches_FullCase) _]%filter_by_matching_antecedent_Some.
    apply elem_of_shortcase_candidates in Hin as [Hin _]. by exists c.
Qed.

(** The matcher with explicit checks never raises and agrees with the
    plain one. *)
Lemma checked_and_in (ag : string) (field : option string) :
  Checked.and_in ag field = Checked.Ok (field_has ag field).
Proof.
  unfold Checked.and_in, field_has. destruct field as [text|]; [|done].
  by destruct (PyStr.truthy (Some text)).
Qed.

Lemma checked_antecedent_matches (ag : string) pairs :
  Checked.antecedent_matches ag pairs = Checked.Ok (antecedent_matches ag pairs).
Proof.
  induction pairs as [|[f r] pairs IH];
    cbn [Checked.antecedent_matches antecedent_matches]; [done|].
  destruct f as [c| |]; cbn [Checked.isinstance_FullCaseCitation negb]; try done.
  cbn [Checked.get_defendant Checked.get_plaintiff Checked.bind].
  rewrite !checked_and_in. cbn [Checked.bind].
  destruct (field_has ag (defendant (metadata c))).
  - by rewrite IH.
  - destruct (field_has ag (plaintiff (metadata c))); by rewrite IH.
Qed.

Lemma antecedent_matches_case_only (ag : string) pairs :
  antecedent_matches ag pairs =
  antecedent_matches ag
    (List.filter (λ p, Checked.isinstance_FullCaseCitation p.1) pairs).
Proof.
  induction pairs as [|[f r] pairs IH]; [done|].
  destruct f as [c| |]; cbn [List.filter fst Checked.isinstance_FullCaseCitation
                             antecedent_matches]; try done.
  by rewrite IH.
Qed.

(** The entry of the log at a given mention of the input. *)
Lemma log_at_split (rs : Resolvers R) (xs : list CitationBase) c ys :
  resolution_log rs initial_state (xs ++ c :: ys) !! length xs =
  Some (dispatch rs (run rs initial_state xs) c).1.
Proof.
  rewrite (log_lookup rs _ _ (length xs) c).
  - by rewrite take_app_length.
  - by rewrite list_lookup_middle.
Qed.

End default_facts.

(** * The statements of the specification *)

(** ** The scenarios of the specification *)

(** Scenario 1: a Full mention followed by an Id mention. *)
Example scenario_full_then_id :
  resolve_citations Samples.defaults
    [Full Samples.lissner; Samples.id_citation 1] =
  [(resolve_full_citation Samples.lissner,
    [Full Samples.lissner; Samples.id_citation 1])].
Proof. by vm_compute. Qed.

(** Scenario 2: two Full mentions of the same reporter and volume, then a
    short-form mention without a guess: a tie, unresolved. *)
Example scenario_short_form_tie :
  resolution_log Samples.defaults initial_state
    [Full Samples.same_a; Full Samples.same_b;
     Samples.short_citation 2 "U.S." "1" None] =
  [Some (resolve_full_citation Samples.same_a);
   Some (resolve_full_citation Samples.same_b); None].
Proof. by vm_compute. Qed.

(** Scenario 3: a supra mention whose guess is the plaintiff. *)
Example scenario_supra :
  resolve_citations Samples.defaults
    [Full Samples.foo_bar; Samples.supra_citation 1 (Some "Foo")] =
  [(resolve_full_citation Samples.foo_bar,
    [Full Samples.foo_bar; Samples.supra_citation 1 (Some "Foo")])].
Proof. by vm_compute. Qed.

(** Scenario 4: a lone Other mention. *)
Example scenario_other :
  resolve_citations Samples.defaults [Samples.nonopinion_citation 0] = [].
Proof. by vm_compute. Qed.

(** The guess is stripped before it is compared, and the comparison is
    case-sensitive. *)
Example matcher_strips_and_is_case_sensitive :
  _filter_by_matching_antecedent PyStr.strip_punct
    [(Samples.smith_a, 7); (Samples.foo_bar, 8)] "Smith," = Some 7 ∧
  _filter_by_matching_antecedent PyStr.strip_punct
    [(Samples.smith_a, 7); (Samples.foo_bar, 8)] "smith" = None.
Proof. by vm_compute. Qed.

(** ** Other mentions (C1) *)

(** C1, as stated, fails: in [Full; Other; Id] the Id mention is unresolved,
    and with the Other mention removed it resolves to the resource of the
    Full mention; the remaining mentions do not keep their resolutions. *)
Lemma C1_counterexample :
  let cs := [Full Samples.smith_a; Samples.nonopinion_citation 1;
             Samples.id_citation 2] in
  resolution_log Samples.defaults initial_state cs !! 2 = Some None ∧
  resolution_log Samples.defaults initial_state (delete 1 cs) !! 1 =
    Some (Some (resolve_full_citation Samples.smith_a)) ∧
  delete 1 (resolution_log Samples.defaults initial_state cs) ≠
    resolution_log Samples.defaults initial_state (delete 1 cs).
Proof.
  split_and!; [by vm_compute | by vm_compute |].
  intros Heq. vm_compute in Heq. discriminate Heq.
Qed.

(** C1 (amended): an Other mention always fails and never stops the pass.
    Removing it changes the resolution of no remaining mention except the
    Id mentions of the unbroken run of Id mentions that directly follows
    it: with the Other mention present these are unresolved, every mention
    before it and every mention from the first non-Id mention after it on
    resolves as it does without it.  When no Id mention directly follows,
    the output grouping is the same with and without the Other mention. *)
Theorem C1_other_removed {R : Type} `{!ResourceType R} (rs : Resolvers R)
    (xs : list CitationBase) (o : Cite unit) (ys : list CitationBase) :
  resolve_id rs = _resolve_id_citation →
  let without := resolution_log rs initial_state (xs ++ ys) in
  let n := leading_ids ys in
  resolution_log rs initial_state (xs ++ Other o :: ys) =
    take (length xs) without ++ None :: replicate n None ++
    drop (length xs + n) without
  ∧ (n = 0 →
     resolve_citations rs (xs ++ Other o :: ys) = resolve_citations rs (xs ++ ys)).
Proof.
  intros Hid without n. subst without n.
  set (st := run rs initial_state xs).
  assert (Hlen : length (resolution_log rs initial_state xs) = length xs)
    by apply length_log.
  split.
  - rewrite !log_app. fold st.
    rewrite <- Hlen at 1. rewrite take_app_length.
    rewrite <- Hlen, drop_app_add.
    cbn [resolution_log]. rewrite loop_body_last. cbn [dispatch fst].
    do 2 f_equal. apply log_after_failure; [done | | ].
    + by rewrite loop_body_table.
    + by rewrite loop_body_last.
  - intros Hn. unfold resolve_citations.
    rewrite !run_app, run_cons. fold st.
    apply resolutions_table_only; [done | | ].
    + by rewrite loop_body_resolutions.
    + by rewrite loop_body_table.
Qed.

Lemma C1_other_removed_witness :
  let rs := Samples.defaults in
  let xs := [Full Samples.smith_a] in
  let ys := [Samples.id_citation 2; Full Samples.smith_b; Samples.id_citation 4] in
  let o := Samples.cite 1 EmptyString None () in
  let without := resolution_log rs initial_state (xs ++ ys) in
  let n := leading_ids ys in
  resolution_log rs initial_state (xs ++ Other o :: ys) =
    take (length xs) without ++ None :: replicate n None ++
    drop (length xs + n) without
  ∧ (n = 0 →
     resolve_citations rs (xs ++ Other o :: ys) = resolve_citations rs (xs ++ ys)).
Proof.
  exact (C1_other_removed Samples.defaults [Full Samples.smith_a]
           (Samples.cite 1 EmptyString None ())
           [Samples.id_citation 2; Full Samples.smith_b; Samples.id_citation 4]
           eq_refl).
Defined.

(** ** Id chaining (C2) *)

(** C2: with the default Id resolver, an Id mention at position [i+1] gets
    exactly the resolution of the mention at position [i]: it is recorded
    under resource [r] iff that mention was, and it is unresolved when that
    mention is (an Other mention included), since the last resolution is
    overwritten after every mention. *)
Theorem C2_id_chaining {R : Type} `{!ResourceType R} (rs : Resolvers R)
    (cs : list CitationBase) (i : nat) (d : IdCitation) :
  resolve_id rs = _resolve_id_citation →
  cs !! S i = Some (Id d) →
  let log := resolution_log rs initial_state cs in
  let out := resolve_citations rs cs in
  log !! S i = log !! i
  ∧ (∀ r, outcome <$> log !! S i = Some (Some r) ↔
          outcome <$> log !! i = Some (Some r))
  ∧ (outcome <$> log !! i = Some None → outcome <$> log !! S i = Some None)
  ∧ (∀ o, cs !! i = Some (Other o) → log !! S i = Some None)
  ∧ (NoDup cs → ∀ c r, cs !! i = Some c →
       (Id d ∈ group r out ↔ c ∈ group r out)).
Proof.
  intros Hid Hd log out. subst log out.
  assert (Hi : is_Some (cs !! i)).
  { apply lookup_lt_is_Some. apply lookup_lt_Some in Hd. lia. }
  destruct Hi as [c Hc].
  assert (Heq : resolution_log rs initial_state cs !! S i =
                resolution_log rs initial_state cs !! i).
  { rewrite (log_lookup _ _ _ _ _ Hd), (log_lookup_last _ _ _ _ _ Hc).
    cbn [dispatch fst]. by rewrite Hid. }
  split_and!.
  - done.
  - intros r. by rewrite Heq.
  - by rewrite Heq.
  - intros o Ho. rewrite Heq, (log_lookup _ _ _ _ _ Ho). done.
  - intros Hnd c' r Hc'.
    rewrite (elem_of_group_NoDup rs cs (S i) (Id d) r Hnd Hd).
    rewrite (elem_of_group_NoDup rs cs i c' r Hnd Hc').
    by rewrite Heq.
Qed.

(** Scenario 1 of the specification, as an instance of C2. *)
Lemma C2_id_chaining_witness :
  let cs := [Full Samples.lissner; Samples.id_citation 1] in
  let log := resolution_log Samples.defaults initial_state cs in
  let out := resolve_citations Samples.defaults cs in
  log !! 1 = log !! 0
  ∧ (∀ r, outcome <$> log !! 1 = Some (Some r) ↔
          outcome <$> log !! 0 = Some (Some r))
  ∧ (outcome <$> log !! 0 = Some None → outcome <$> log !! 1 = Some None)
  ∧ (∀ o, cs !! 0 = Some (Other o) → log !! 1 = Some None)
  ∧ (NoDup cs → ∀ c r, cs !! 0 = Some c →
       (Samples.id_citation 1 ∈ group r out ↔ c ∈ group r out)).
Proof.
  exact (C2_id_chaining Samples.defaults
           [Full Samples.lissner; Samples.id_citation 1] 0
           (Samples.cite 1 EmptyString None ()) eq_refl eq_refl).
Defined.

(** ** Prefix determinism (C8) *)

(** C8: the resolutions of the mentions of a prefix are the same whether
    the engine runs on the prefix or on the whole sequence: the log of the
    prefix is the log of the whole sequence cut at the prefix, and every
    list of the grouping of the prefix is the beginning of the list the
    whole sequence gives to the same resource. *)
Theorem C8_prefix_determinism {R : Type} `{!ResourceType R} (rs : Resolvers R)
    (xs ys : list CitationBase) :
  take (length xs) (resolution_log rs initial_state (xs ++ ys)) =
    resolution_log rs initial_state xs
  ∧ (∀ i c, xs !! i = Some c →
       resolution_log rs initial_state (xs ++ ys) !! i =
       resolution_log rs initial_state xs !! i)
  ∧ (∀ r, group r (resolve_citations rs xs) `prefix_of`
          group r (resolve_citations rs (xs ++ ys))).
Proof.
  assert (Hlen : length (resolution_log rs initial_state xs) = length xs)
    by apply length_log.
  split_and!.
  - rewrite log_app, <- Hlen. apply take_app_length.
  - intros i c Hi. rewrite log_app. apply lookup_app_l.
    rewrite Hlen. by eapply lookup_lt_Some.
  - intros r. unfold resolve_citations. rewrite run_app, (group_run _ (run _ _ xs)).
    by eexists.
Qed.

(** ** The grouping invariant (C4) *)

(** C4: each resource of the output grouping occurs once as a key, and its
    list is exactly the subsequence, in input order, of the mentions whose
    outcome is that resource; the lists together hold one entry per
    resolved position and nothing else, so a mention is in at most one list
    and a mention that fails to resolve is in none. *)
Theorem C4_grouping_invariant {R : Type} `{!ResourceType R} (rs : Resolvers R)
    (cs : list CitationBase) :
  let out := resolve_citations rs cs in
  let log := resolution_log rs initial_state cs in
  NoDup (Dict.keys out)
  ∧ (∀ r l, (r, l) ∈ out ↔ l = resolved_to r cs log ∧ l ≠ [])
  ∧ (∀ r l, (r, l) ∈ out → sublist l cs)
  ∧ sum_list (length <$> out.*2) = length (omap outcome log)
  ∧ (NoDup cs → ∀ c r1 l1 r2 l2,
       (r1, l1) ∈ out → (r2, l2) ∈ out → c ∈ l1 → c ∈ l2 → r1 = r2)
  ∧ (NoDup cs → ∀ i c,
       cs !! i = Some c → outcome <$> log !! i = Some None →
       ∀ r l, (r, l) ∈ out → c ∉ l).
Proof.
  intros out log.
  pose proof (resolve_citations_wf rs cs) as Hwf.
  pose proof (resolve_citations_entry rs cs) as Hentry.
  fold out in Hwf, Hentry. fold log in Hentry.
  assert (Hpos : ∀ r l c, (r, l) ∈ out → c ∈ l →
            ∃ i res, cs !! i = Some c ∧ log !! i = Some res ∧ outcome res = Some r).
  { intros r l c [-> _]%Hentry Hc. by apply elem_of_resolved_to. }
  split_and!.
  - apply Hwf.
  - done.
  - intros r l [-> _]%Hentry. apply resolved_to_sublist.
  - unfold out, resolve_citations. by rewrite sum_lengths_run.
  - intros Hnd c r1 l1 r2 l2 H1 H2 Hc1 Hc2.
    destruct (Hpos _ _ _ H1 Hc1) as (i & res1 & Hi & Hl1 & Ho1).
    destruct (Hpos _ _ _ H2 Hc2) as (j & res2 & Hj & Hl2 & Ho2).
    assert (i = j) as -> by by eapply NoDup_lookup.
    congruence.
  - intros Hnd i c Hi Hfail r l Hin Hc.
    destruct (Hpos _ _ _ Hin Hc) as (j & res & Hj & Hl & Ho).
    assert (i = j) as -> by by eapply NoDup_lookup.
    rewrite Hl in Hfail. cbn in Hfail. congruence.
Qed.

(** ** Full mentions (C3) *)

(** C3: with the default full-citation resolver every Full mention
    resolves, to the resource that wraps it; it is in the list of that
    resource and in the list of no other resource.  Whatever the full
    resolver is, the table of full citations maps the mention to the
    resource the resolver returned for it. *)
Theorem C3_full_always_resolves
    (short : ShortCaseCitation → list (FullCitation * Resource) → option Resource)
    (supra : SupraCitation → list (FullCitation * Resource) → option Resource)
    (id : IdCitation → option Resource → option Resource)
    (cs : list CitationBase) (f : FullCitation) :
  Full f ∈ cs →
  let rs := mkResolvers resolve_full_citation short supra id in
  let out := resolve_citations rs cs in
  (∀ i, cs !! i = Some (Full f) →
     outcome <$> resolution_log rs initial_state cs !! i =
     Some (Some (resolve_full_citation f)))
  ∧ (∃ l, (resolve_full_citation f, l) ∈ out ∧ Full f ∈ l)
  ∧ (∀ r l, (r, l) ∈ out → Full f ∈ l → r = resolve_full_citation f)
  ∧ (∀ (R : Type) (RT : ResourceType R) (custom : Resolvers R),
       Dict.get f (resolved_full_cites (run custom initial_state cs)) =
       Some (resolve_full custom f)).
Proof.
  intros Hf rs out.
  pose proof (resolve_citations_entry rs cs) as Hentry.
  fold out in Hentry.
  assert (Hlog : ∀ i c, cs !! i = Some (Full c) →
            resolution_log rs initial_state cs !! i =
            Some (Some (resolve_full_citation c))).
  { intros i c Hi. by rewrite (log_lookup _ _ _ _ _ Hi). }
  assert (Hin : Full f ∈ resolved_to (resolve_full_citation f) cs
                  (resolution_log rs initial_state cs)).
  { apply list_elem_of_lookup in Hf as [i Hi]. apply elem_of_resolved_to.
    exists i, (Some (resolve_full_citation f)). by rewrite (Hlog _ _ Hi). }
  split_and!.
  - intros i Hi. by rewrite (Hlog _ _ Hi).
  - eexists. split; [|exact Hin]. apply Hentry. split; [done|].
    intros Hnil. rewrite Hnil in Hin. by apply elem_of_nil in Hin.
  - intros r l [-> _]%Hentry (i & res & Hi & Hl & Ho)%elem_of_resolved_to.
    rewrite (Hlog _ _ Hi) in Hl. injection Hl as <-. cbn in Ho. congruence.
  - intros R RT custom. by rewrite table_run_get, decide_True.
Qed.

Lemma C3_full_always_resolves_witness :
  let cs := [Full Samples.same_a; Full Samples.same_b;
             Samples.short_citation 2 "U.S." "1" None] in
  let f := Samples.same_b in
  let rs := Samples.defaults in
  let out := resolve_citations rs cs in
  (∀ i, cs !! i = Some (Full f) →
     outcome <$> resolution_log rs initial_state cs !! i =
     Some (Some (resolve_full_citation f)))
  ∧ (∃ l, (resolve_full_citation f, l) ∈ out ∧ Full f ∈ l)
  ∧ (∀ r l, (r, l) ∈ out → Full f ∈ l → r = resolve_full_citation f)
  ∧ (∀ (R : Type) (RT : ResourceType R) (custom : Resolvers R),
       Dict.get f (resolved_full_cites (run custom initial_state cs)) =
       Some (resolve_full custom f)).
Proof.
  apply (C3_full_always_resolves
           (_resolve_shortcase_citation PyStr.strip_punct)
           (_resolve_supra_citation PyStr.strip_punct)
           _resolve_id_citation
           [Full Samples.same_a; Full Samples.same_b;
            Samples.short_citation 2 "U.S." "1" None]
           Samples.same_b).
  right. left.
Defined.

(** ** Truthiness (C9) *)

(** C9: success is judged by truthiness.  When the resolver invoked for a
    mention returns a falsy resource, the mention is left out of the
    grouping and the last resolution becomes that falsy value, so an Id
    mention that directly follows is left out as well; if the mention is a
    Full mention, the table of full citations still maps it to the falsy
    resource. *)
Theorem C9_falsy_resolution {R : Type} `{!ResourceType R} (rs : Resolvers R)
    (xs : list CitationBase) (c : CitationBase) (r : R) :
  (dispatch rs (run rs initial_state xs) c).1 = Some r →
  resource_truthy r = false →
  resolve_citations rs (xs ++ [c]) = resolve_citations rs xs
  ∧ last_resolution (run rs initial_state (xs ++ [c])) = Some r
  ∧ (∀ i, resolve_id rs = _resolve_id_citation →
       resolve_citations rs (xs ++ [c; Id i]) = resolve_citations rs xs ∧
       last_resolution (run rs initial_state (xs ++ [c; Id i])) = Some r)
  ∧ (∀ f, c = Full f →
       Dict.get f (resolved_full_cites (run rs initial_state (xs ++ [c]))) = Some r).
Proof.
  intros Hres Hfalsy. unfold resolve_citations.
  assert (Hout : outcome (Some r) = None).
  { unfold outcome. cbn. by rewrite Hfalsy. }
  assert (H1 : resolutions (run rs initial_state (xs ++ [c])) =
               resolutions (run rs initial_state xs)).
  { by rewrite run_snoc, loop_body_resolutions, Hres, Hout. }
  assert (H2 : last_resolution (run rs initial_state (xs ++ [c])) = Some r).
  { by rewrite run_snoc, loop_body_last. }
  split_and!; [done | done | |].
  - intros i Hid.
    replace (xs ++ [c; Id i]) with ((xs ++ [c]) ++ [Id i])
      by by rewrite <- app_assoc.
    rewrite (run_snoc _ _ (xs ++ [c])), loop_body_resolutions, loop_body_last.
    cbn [dispatch fst]. rewrite Hid. unfold _resolve_id_citation.
    by rewrite H2, Hout.
  - intros f ->. rewrite table_run_get, decide_True; [|apply elem_of_app; right; left].
    cbn in Hres. congruence.
Qed.

Lemma C9_falsy_resolution_witness :
  let rs := with_defaults PyStr.strip_punct (λ _ : FullCitation, 0) in
  let xs := [Full Samples.lissner] in
  let c := Full Samples.smith_b in
  resolve_citations rs (xs ++ [c]) = resolve_citations rs xs
  ∧ last_resolution (run rs initial_state (xs ++ [c])) = Some 0
  ∧ (∀ i, resolve_id rs = _resolve_id_citation →
       resolve_citations rs (xs ++ [c; Id i]) = resolve_citations rs xs ∧
       last_resolution (run rs initial_state (xs ++ [c; Id i])) = Some 0)
  ∧ (∀ f, c = Full f →
       Dict.get f (resolved_full_cites (run rs initial_state (xs ++ [c]))) = Some 0).
Proof.
  exact (C9_falsy_resolution (with_defaults PyStr.strip_punct (λ _, 0))
           [Full Samples.lissner] (Full Samples.smith_b) 0 eq_refl eq_refl).
Defined.

(** ** The antecedent matcher (C5) *)

(** C5, as stated, fails in its last part: two Full mentions with distinct
    resources both have the guess in their defendant field, and the later
    short-form mention with that guess resolves all the same, because its
    reporter and volume leave one candidate and the guess is not looked at. *)
Lemma C5_counterexample :
  let short := Samples.short_citation 2 "U.S." "1" (Some "Smith") in
  let cs := [Full Samples.smith_a; Full Samples.smith_b; short] in
  Matches (PyStr.strip_punct "Smith") Samples.smith_a ∧
  Matches (PyStr.strip_punct "Smith") Samples.smith_b ∧
  resolve_full_citation Samples.smith_a ≠ resolve_full_citation Samples.smith_b ∧
  resolution_log Samples.defaults initial_state cs !! 2 =
    Some (Some (resolve_full_citation Samples.smith_a)) ∧
  short ∈ group (resolve_full_citation Samples.smith_a)
            (resolve_citations Samples.defaults cs).
Proof.
  assert (HM : ∀ at_ rep vol pl,
    Matches (PyStr.strip_punct "Smith")
      (Samples.case_citation at_ rep vol pl (Some "Smith"))).
  { intros. eexists. split; [done|]. left. exists "Smith".
    split_and!; [done | done | apply Substring_refl]. }
  split_and!; [apply HM | apply HM | by intros [=] | by vm_compute |].
  vm_compute. right. left.
Qed.

(** C5 (amended): the matcher strips the guess, counts a candidate as
    matching iff the stripped guess is a substring (case-sensitive) of its
    defendant field or else of its plaintiff field, a field that is none or
    empty containing nothing, and resolves to [r] iff [r] is the one
    distinct resource among the matching candidates; two matching
    candidates with distinct resources leave it unresolved.  In the driver,
    when two earlier Full mentions with distinct resources both match the
    guess, a later supra mention with that guess is unresolved, and so is a
    later short-form mention with that guess whose reporter and volume
    filter keeps both of them. *)
Theorem C5_antecedent_matcher {R : Type} `{!ResourceType R}
    (strip_punct : string → string)
    (pairs : list (FullCitation * R)) (guess : string) :
  let ag := strip_punct guess in
  (∀ r, r ∈ antecedent_matches ag pairs ↔ ∃ f, (f, r) ∈ pairs ∧ Matches ag f)
  ∧ (∀ r, _filter_by_matching_antecedent strip_punct pairs guess = Some r ↔
          OneResource (Matches ag) pairs r)
  ∧ (∀ f1 r1 f2 r2,
       (f1, r1) ∈ pairs → (f2, r2) ∈ pairs → r1 ≠ r2 →
       Matches ag f1 → Matches ag f2 →
       _filter_by_matching_antecedent strip_punct pairs guess = None)
  ∧ (∀ (full : FullCitation → R) xs ys f1 f2 (s : SupraCitation),
       Full f1 ∈ xs → Full f2 ∈ xs → full f1 ≠ full f2 →
       Matches ag f1 → Matches ag f2 →
       guess_present (antecedent_guess (metadata s)) guess →
       resolution_log (with_defaults strip_punct full) initial_state
         (xs ++ Supra s :: ys) !! length xs = Some None)
  ∧ (∀ (full : FullCitation → R) xs ys f1 f2 (s : ShortCaseCitation),
       Full f1 ∈ xs → Full f2 ∈ xs → full f1 ≠ full f2 →
       Matches ag f1 → Matches ag f2 →
       short_filter_keeps s f1 → short_filter_keeps s f2 →
       guess_present (antecedent_guess (metadata s)) guess →
       resolution_log (with_defaults strip_punct full) initial_state
         (xs ++ ShortCase s :: ys) !! length xs = Some None).
Proof.
  intros ag. split_and!.
  - intros r. apply elem_of_antecedent_matches.
  - intros r. apply filter_by_matching_antecedent_Some.
  - intros f1 r1 f2 r2. apply filter_by_matching_antecedent_ambiguous.
  - intros full xs ys f1 f2 s H1 H2 Hne M1 M2 [Hg Hne'].
    rewrite log_at_split. cbn [dispatch with_defaults resolve_supra fst].
    unfold _resolve_supra_citation. rewrite Hg.
    rewrite (proj2 (truthy_Some_iff guess)) by done. cbn [negb]. f_equal.
    apply (filter_by_matching_antecedent_ambiguous _ _ _ f1 f2 (full f1) (full f2));
      try done; by apply table_initial_elem_of.
  - intros full xs ys f1 f2 s H1 H2 Hne M1 M2 K1 K2 [Hg Hne'].
    rewrite log_at_split. cbn [dispatch with_defaults resolve_shortcase fst].
    set (table := resolved_full_cites _).
    assert (Hin : ∀ f, Full f ∈ xs → short_filter_keeps s f →
              (f, full f) ∈ shortcase_candidates s table).
    { intros f Hf Hk. apply elem_of_shortcase_candidates. split; [|done].
      by apply table_initial_elem_of. }
    rewrite shortcase_not_unique.
    + rewrite Hg, (proj2 (truthy_Some_iff guess)) by done. f_equal.
      apply (filter_by_matching_antecedent_ambiguous _ _ _ f1 f2 (full f1) (full f2));
        auto.
    + intros [r [_ Hall]]. destruct Hne.
      rewrite (Hall f1 (full f1)), (Hall f2 (full f2)); auto.
Qed.

(** ** The short-form resolver (C6) *)

(** C6: the default short-form resolver keeps, in table order, the pairs of
    the table whose Full mention is of the case subtype, has the short
    mention's corrected reporter and the same raw volume token (compared as
    strings); when the kept pairs have exactly one distinct resource it
    resolves to it; otherwise, with an antecedent guess present, it returns
    what the antecedent matcher returns on the kept pairs; otherwise it is
    unresolved. *)
Theorem C6_shortcase_resolver {R : Type} `{!ResourceType R}
    (strip_punct : string → string)
    (s : ShortCaseCitation) (table : list (FullCitation * R)) :
  let cands := shortcase_candidates s table in
  let result := _resolve_shortcase_citation strip_punct s table in
  (∀ f r, (f, r) ∈ cands ↔ (f, r) ∈ table ∧ short_filter_keeps s f)
  ∧ sublist cands table
  ∧ (∀ r, OneResource (λ _, True) cands r → result = Some r)
  ∧ ((¬ ∃ r, OneResource (λ _, True) cands r) →
     ∀ g, guess_present (antecedent_guess (metadata s)) g →
          result = _filter_by_matching_antecedent strip_punct cands g)
  ∧ ((¬ ∃ r, OneResource (λ _, True) cands r) →
     (∀ g, ¬ guess_present (antecedent_guess (metadata s)) g) →
     result = None).
Proof.
  intros cands result. subst cands result. split_and!.
  - intros f r. apply elem_of_shortcase_candidates.
  - apply shortcase_candidates_sublist.
  - intros r. apply shortcase_unique.
  - intros Hnone g [Hg Hne]. rewrite shortcase_not_unique by done.
    by rewrite Hg, (proj2 (truthy_Some_iff g)).
  - intros Hnone Hno. rewrite shortcase_not_unique by done.
    destruct (antecedent_guess (metadata s)) as [g|] eqn:Hg; [|done].
    destruct (PyStr.truthy (Some g)) eqn:Ht; [|done].
    destruct (Hno g). split; [done | by apply truthy_Some_iff].
Qed.

(** The volume token is compared as a string: a short-form mention of
    volume "01" finds no candidate of volume "1". *)
Example shortcase_volume_is_text :
  resolution_log Samples.defaults initial_state
    [Full Samples.lissner; Samples.short_citation 1 "U.S." "01" None;
     Samples.short_citation 2 "U.S." "1" None] =
  [Some (resolve_full_citation Samples.lissner); None;
   Some (resolve_full_citation Samples.lissner)].
Proof. by vm_compute. Qed.

(** ** The supra resolver (C7) *)

(** C7: the default supra resolver is unresolved when the mention has no
    antecedent guess; with a guess it returns what the antecedent matcher
    returns on the whole table, so it resolves to [r] iff [r] is the one
    distinct resource among all the entries of the table that match. *)
Theorem C7_supra_resolver {R : Type} `{!ResourceType R}
    (strip_punct : string → string)
    (s : SupraCitation) (table : list (FullCitation * R)) :
  let result := _resolve_supra_citation strip_punct s table in
  ((∀ g, ¬ guess_present (antecedent_guess (metadata s)) g) → result = None)
  ∧ (∀ g, guess_present (antecedent_guess (metadata s)) g →
          result = _filter_by_matching_antecedent strip_punct table g)
  ∧ (∀ g r, guess_present (antecedent_guess (metadata s)) g →
          (result = Some r ↔ OneResource (Matches (strip_punct g)) table r)).
Proof.
  intros result. subst result. unfold _resolve_supra_citation.
  assert (Hyes : ∀ g, guess_present (antecedent_guess (metadata s)) g →
    match antecedent_guess (metadata s) with
    | Some guess =>
        if negb (PyStr.truthy (Some guess)) then None
        else _filter_by_matching_antecedent strip_punct table guess
    | None => None
    end = _filter_by_matching_antecedent strip_punct table g).
  { intros g [Hg Hne]. by rewrite Hg, (proj2 (truthy_Some_iff g)). }
  split_and!.
  - intros Hno. destruct (antecedent_guess (metadata s)) as [g|] eqn:Hg; [|done].
    destruct (PyStr.truthy (Some g)) eqn:Ht; [|done].
    destruct (Hno g). split; [done | by apply truthy_Some_iff].
  - done.
  - intros g r Hg. rewrite (Hyes g Hg). apply filter_by_matching_antecedent_Some.
Qed.

(** ** The guards of the matcher (C10) *)

(** C10: the matcher skips every candidate that is not of the case subtype
    before it reads its metadata and takes a none defendant or plaintiff as
    a non-match: with Python's checks made explicit it never raises, its
    result does not depend on the candidates of other subtypes, and a case
    candidate with both fields none changes nothing.  Hence what a supra or
    short-form mention resolves to is the resource of a case-subtype Full
    mention, with the default resolvers the wrapper of a case-subtype Full
    mention that occurs earlier in the input. *)
Theorem C10_matcher_guards (strip_punct : string → string) :
  (∀ (R : Type) (RT : ResourceType R) (pairs : list (FullCitation * R)) guess,
     Checked._filter_by_matching_antecedent strip_punct pairs guess =
       Checked.Ok (_filter_by_matching_antecedent strip_punct pairs guess)
     ∧ _filter_by_matching_antecedent strip_punct pairs guess =
       _filter_by_matching_antecedent strip_punct
         (List.filter (λ p, Checked.isinstance_FullCaseCitation p.1) pairs) guess
     ∧ (∀ c r, defendant (metadata c) = None → plaintiff (metadata c) = None →
          _filter_by_matching_antecedent strip_punct ((FullCase c, r) :: pairs) guess =
          _filter_by_matching_antecedent strip_punct pairs guess)
     ∧ (∀ (s : SupraCitation) r,
          _resolve_supra_citation strip_punct s pairs = Some r →
          ∃ c, (FullCase c, r) ∈ pairs)
     ∧ (∀ (s : ShortCaseCitation) r,
          _resolve_shortcase_citation strip_punct s pairs = Some r →
          ∃ c, (FullCase c, r) ∈ pairs))
  ∧ (∀ xs m ys r,
       (∃ s, m = Supra s) ∨ (∃ s, m = ShortCase s) →
       resolution_log (default_resolvers strip_punct) initial_state
         (xs ++ m :: ys) !! length xs = Some (Some r) →
       ∃ c, r = resolve_full_citation (FullCase c) ∧ Full (FullCase c) ∈ xs).
Proof.
  split.
  - intros R RT pairs guess. split_and!.
    + unfold Checked._filter_by_matching_antecedent.
      by rewrite checked_antecedent_matches.
    + unfold _filter_by_matching_antecedent.
      by rewrite <- antecedent_matches_case_only.
    + intros c r Hd Hp. unfold _filter_by_matching_antecedent.
      cbn [antecedent_matches]. by rewrite Hd, Hp.
    + intros s r. apply supra_Some_case.
    + intros s r. apply shortcase_Some_case.
  - intros xs m ys r Hm. rewrite log_at_split. intros [= Hres].
    assert (∃ c, (FullCase c, r) ∈
              resolved_full_cites (run (default_resolvers strip_punct)
                                     initial_state xs)) as [c Hc].
    { destruct Hm as [[s ->]|[s ->]]; cbn in Hres.
      - by eapply supra_Some_case.
      - by eapply shortcase_Some_case. }
    apply table_initial_elem_of in Hc as [Hin ->]. by exists c.
Qed.

(** * Further properties of the resolvers *)

Section more_resolver_facts.
Context {R : Type} `{!ResourceType R}.
Variable strip_punct : string → string.
Implicit Types (r : R) (f : FullCitation) (pairs : list (FullCitation * R))
  (s : ShortCaseCitation).

Lemma OneResource_set (P : FullCitation → Prop) pairs1 pairs2 r :
  (∀ p, p ∈ pairs1 ↔ p ∈ pairs2) →
  OneResource P pairs1 r ↔ OneResource P pairs2 r.
Proof. intros Hset. unfold OneResource. by setoid_rewrite Hset. Qed.

Lemma OneResource_unique (P : FullCitation → Prop) pairs r1 r2 :
  OneResource P pairs r1 → OneResource P pairs r2 → r1 = r2.
Proof. intros [(f & Hin & HP) _] [_ Hall]. by eapply Hall. Qed.

Lemma filter_by_matching_antecedent_set pairs1 pairs2 (guess : string) :
  (∀ p, p ∈ pairs1 ↔ p ∈ pairs2) →
  _filter_by_matching_antecedent strip_punct pairs1 guess =
  _filter_by_matching_antecedent strip_punct pairs2 guess.
Proof.
  intros Hset. apply option_eq. intros r.
  rewrite !filter_by_matching_antecedent_Some. by apply OneResource_set.
Qed.

Lemma shortcase_candidates_set s pairs1 pairs2 :
  (∀ p, p ∈ pairs1 ↔ p ∈ pairs2) →
  ∀ p, p ∈ shortcase_candidates s pairs1 ↔ p ∈ shortcase_candidates s pairs2.
Proof.
  intros Hset [f r]. by rewrite !elem_of_shortcase_candidates, Hset.
Qed.

(** When the short-form resolver resolves, and to what. *)
Lemma shortcase_Some_iff s pairs r :
  _resolve_shortcase_citation strip_punct s pairs = Some r ↔
  OneResource (λ _, True) (shortcase_candidates s pairs) r ∨
  ((¬ ∃ r', OneResource (λ _, True) (shortcase_candidates s pairs) r') ∧
   ∃ g, guess_present (antecedent_guess (metadata s)) g ∧
        OneResource (Matches (strip_punct g)) (shortcase_candidates s pairs) r).
Proof.
  destruct (length (remove_dups (shortcase_candidates s pairs).*2) =? 1)%nat
    eqn:Hlen.
  - apply length_remove_dups_one in Hlen as [r' Hr'%OneResource_any].
    rewrite (shortcase_unique _ _ _ _ Hr'). split.
    + intros [= <-]. by left.
    + intros [Hr|[Hnone _]].
      * f_equal. by eapply OneResource_unique.
      * destruct Hnone. by exists r'.
  - assert (Hnone : ¬ ∃ r', OneResource (λ _, True) (shortcase_candidates s pairs) r').
    { intros [r' Hr'%OneResource_any].
      rewrite (proj2 (length_remove_dups_one _)) in Hlen by by exists r'. done. }
    rewrite shortcase_not_unique by done. split.
    + destruct (antecedent_guess (metadata s)) as [g|] eqn:Hg; [|done].
      destruct (PyStr.truthy (Some g)) eqn:Ht; [|done].
      intros Hr%filter_by_matching_antecedent_Some. right. split; [done|].
      exists g. split; [|done]. split; [done | by apply truthy_Some_iff].
    + intros [Hr|(_ & g & [Hg Hne] & Hr)]; [destruct Hnone; by exists r|].
      rewrite Hg, (proj2 (truthy_Some_iff g)) by done.
      by apply filter_by_matching_antecedent_Some.
Qed.

Lemma shortcase_set s pairs1 pairs2 :
  (∀ p, p ∈ pairs1 ↔ p ∈ pairs2) →
  _resolve_shortcase_citation strip_punct s pairs1 =
  _resolve_shortcase_citation strip_punct s pairs2.
Proof.
  intros Hset. apply option_eq. intros r. rewrite !shortcase_Some_iff.
  pose proof (shortcase_candidates_set s _ _ Hset) as Hc.
  rewrite (OneResource_set _ _ _ r Hc).
  assert ((∃ r', OneResource (λ _, True) (shortcase_candidates s pairs1) r') ↔
          (∃ r', OneResource (λ _, True) (shortcase_candidates s pairs2) r')) as ->.
  { split; intros [r' Hr']; exists r'; by apply (OneResource_set _ _ _ r' Hc). }
  assert (∀ g, OneResource (Matches (strip_punct g)) (shortcase_candidates s pairs1) r ↔
               OneResource (Matches (strip_punct g)) (shortcase_candidates s pairs2) r)
    as Hm by (intros g; by apply OneResource_set).
  by setoid_rewrite Hm.
Qed.

Lemma supra_set (s : SupraCitation) pairs1 pairs2 :
  (∀ p, p ∈ pairs1 ↔ p ∈ pairs2) →
  _resolve_supra_citation strip_punct s pairs1 =
  _resolve_supra_citation strip_punct s pairs2.
Proof.
  intros Hset. unfold _resolve_supra_citation.
  destruct (antecedent_guess (metadata s)) as [g|]; [|done].
  destruct (negb (PyStr.truthy (Some g))); [done|].
  by apply filter_by_matching_antecedent_set.
Qed.

(** X1: the antecedent matcher returns none exactly when no candidate
    matches the stripped guess (an empty candidate list included) or two
    matching candidates have distinct resources. *)
Theorem X1_matcher_unresolved_iff pairs (guess : string) :
  _filter_by_matching_antecedent strip_punct pairs guess = None ↔
  (∀ f r, (f, r) ∈ pairs → ¬ Matches (strip_punct guess) f) ∨
  (∃ f1 r1 f2 r2, (f1, r1) ∈ pairs ∧ (f2, r2) ∈ pairs ∧ r1 ≠ r2 ∧
     Matches (strip_punct guess) f1 ∧ Matches (strip_punct guess) f2).
Proof.
  split.
  - intros Hnone.
    destruct (antecedent_matches (strip_punct guess) pairs) as [|r1 ms] eqn:Hms.
    + left. intros f r Hin HM.
      assert (r ∈ antecedent_matches (strip_punct guess) pairs) as Hr
        by (apply elem_of_antecedent_matches; eauto).
      rewrite Hms in Hr. by apply elem_of_nil in Hr.
    + right.
      assert (r1 ∈ antecedent_matches (strip_punct guess) pairs) as Hr1
        by (rewrite Hms; left).
      destruct (decide (Forall (λ r', r' = r1)
                          (antecedent_matches (strip_punct guess) pairs)))
        as [Hall|Hnot].
      * exfalso. rewrite Forall_forall in Hall.
        assert (_filter_by_matching_antecedent strip_punct pairs guess = Some r1)
          as Hsome; [|congruence].
        unfold _filter_by_matching_antecedent.
        by apply only_one_Some, remove_dups_singleton.
      * apply not_Forall_Exists in Hnot; [|apply _].
        apply Exists_exists in Hnot as (r2 & Hr2 & Hne). cbn in Hne.
        apply elem_of_antecedent_matches in Hr1 as (f1 & ? & ?).
        apply elem_of_antecedent_matches in Hr2 as (f2 & ? & ?).
        exists f1, r1, f2, r2. split_and!; done.
  - intros [Hno|(f1 & r1 & f2 & r2 & H1 & H2 & Hne & M1 & M2)].
    + destruct (_filter_by_matching_antecedent strip_punct pairs guess) as [r|] eqn:E;
        [|done].
      apply filter_by_matching_antecedent_Some in E as [(f & Hin & HM) _].
      by destruct (Hno f r).
    + exact (filter_by_matching_antecedent_ambiguous _ _ _ _ _ _ _ H1 H2 Hne M1 M2).
Qed.

End more_resolver_facts.

(** * Further properties of the driver *)

Section more_dict_facts.
Context {K V : Type} `{EqDecision K}.
Implicit Types (k : K) (v : V) (d : list (K * V)).

Lemma elem_of_set_inv k v k' v' d :
  (k', v') ∈ Dict.set k v d → (k' = k ∧ v' = v) ∨ (k', v') ∈ d.
Proof.
  induction d as [|[k0 v0] d IH]; cbn [Dict.set].
  - intros ?%list_elem_of_singleton. simplify_eq. by left.
  - destruct (decide (k0 = k)) as [->|Hne]; rewrite !elem_of_cons.
    + intros [?|?]; simplify_eq; auto.
    + intros [?|[?|?]%IH]; simplify_eq; auto.
Qed.

Lemma first_occurrences_snoc (l : list K) k :
  first_occurrences (l ++ [k]) =
  if decide (k ∈ first_occurrences l) then first_occurrences l
  else first_occurrences l ++ [k].
Proof.
  unfold first_occurrences. rewrite reverse_snoc. cbn [remove_dups].
  destruct (decide_rel elem_of k (reverse l)) as [Hin|Hnin].
  - rewrite decide_True; [done|].
    by rewrite elem_of_reverse, elem_of_remove_dups.
  - rewrite decide_False, reverse_cons; [done|].
    by rewrite elem_of_reverse, elem_of_remove_dups.
Qed.

Lemma elem_of_first_occurrences (l : list K) k :
  k ∈ first_occurrences l ↔ k ∈ l.
Proof.
  unfold first_occurrences.
  by rewrite elem_of_reverse, elem_of_remove_dups, elem_of_reverse.
Qed.

End more_dict_facts.

Section more_engine_facts.
Context {R : Type} `{!ResourceType R}.
Implicit Types (r : R) (f : FullCitation) (c : CitationBase)
  (cs xs ys : list CitationBase) (st : EngineState R).

Lemma outcome_Some (o : option R) r :
  outcome o = Some r ↔ o = Some r ∧ resource_truthy r = true.
Proof.
  unfold outcome. destruct o as [r'|]; cbn; [|split; [done | by intros [? _]]].
  destruct (resource_truthy r') eqn:Ht; split.
  - intros [= <-]. done.
  - by intros [? _].
  - done.
  - intros [[= <-] ?]. congruence.
Qed.

Lemma group_loop_body (rs : Resolvers R) st c r :
  group r (resolutions (loop_body rs st c)) =
  group r (resolutions st) ++
  if decide (outcome (dispatch rs st c).1 = Some r) then [c] else [].
Proof.
  rewrite loop_body_resolutions.
  destruct (outcome (dispatch rs st c).1) as [r'|] eqn:Ho.
  - rewrite group_record. destruct (decide (r' = r)) as [->|Hne].
    + by rewrite decide_True.
    + rewrite decide_False, app_nil_r; [done | congruence].
  - by rewrite decide_False, app_nil_r.
Qed.

(** X5: the keys of the returned dictionary are the resources mentions were
    recorded under, each once, in the order in which they were first
    resolved to. *)
Theorem X5_output_key_order (rs : Resolvers R) cs :
  Dict.keys (resolve_citations rs cs) =
  first_occurrences (omap outcome (resolution_log rs initial_state cs)).
Proof.
  unfold resolve_citations. induction cs as [|c cs IH] using rev_ind; [done|].
  rewrite run_snoc, log_app, omap_app, loop_body_resolutions.
  cbn [resolution_log]. rewrite loop_body_last.
  unfold omap at 2. cbn [list_omap].
  destruct (outcome (dispatch rs (run rs initial_state cs) c).1) as [r|].
  - rewrite first_occurrences_snoc, <- IH. unfold record_citation.
    by rewrite keys_set.
  - by rewrite app_nil_r.
Qed.

Lemma full_citations_snoc cs c :
  full_citations (cs ++ [c]) =
  full_citations cs ++ match c with Full f => [f] | _ => [] end.
Proof. unfold full_citations. rewrite omap_app. by destruct c. Qed.

Lemma keys_table_run (rs : Resolvers R) cs :
  Dict.keys (resolved_full_cites (run rs initial_state cs)) =
  first_occurrences (full_citations cs).
Proof.
  induction cs as [|c cs IH] using rev_ind; [done|].
  rewrite run_snoc, loop_body_table, full_citations_snoc.
  destruct c; cbn [dispatch snd]; rewrite ?app_nil_r; try done.
  by rewrite first_occurrences_snoc, <- IH, keys_set.
Qed.

(** *** Runs of Id mentions *)

Lemma log_id_run (rs : Resolvers R) st ids ys :
  resolve_id rs = _resolve_id_citation →
  Forall (λ m, is_Id m = true) ids →
  resolution_log rs st (ids ++ ys) =
  replicate (length ids) (last_resolution st) ++
  resolution_log rs (run rs st ids) ys.
Proof.
  intros Hid Hids. revert st. induction Hids as [|m ids Hm _ IH]; intros st; [done|].
  destruct m as [| | |i|]; try done.
  cbn [app resolution_log length replicate]. rewrite run_cons, IH.
  rewrite !loop_body_last. cbn [dispatch fst]. by rewrite Hid.
Qed.

(** *** Inputs without Full mentions *)

Lemma defaults_on_empty_table (strip_punct : string → string)
    (full : FullCitation → R) st c :
  (∀ f, c ≠ Full f) →
  resolved_full_cites st = [] → last_resolution st = None →
  dispatch (with_defaults strip_punct full) st c = (None, []).
Proof.
  intros Hc Ht Hl. destruct c as [f|s|s|i|o]; cbn; rewrite ?Ht, ?Hl.
  - by destruct (Hc f).
  - unfold _resolve_shortcase_citation. cbn.
    destruct (antecedent_guess (metadata s)) as [g|]; [|done].
    by destruct g.
  - unfold _resolve_supra_citation.
    destruct (antecedent_guess (metadata s)) as [g|]; [|done].
    by destruct g.
  - done.
  - done.
Qed.

Lemma run_without_full (strip_punct : string → string)
    (full : FullCitation → R) st cs :
  (∀ f, Full f ∉ cs) →
  resolved_full_cites st = [] → last_resolution st = None →
  run (with_defaults strip_punct full) st cs = st ∧
  resolution_log (with_defaults strip_punct full) st cs =
    replicate (length cs) None.
Proof.
  revert st. induction cs as [|c cs IH]; intros st Hno Ht Hl; [done|].
  assert (Hd : dispatch (with_defaults strip_punct full) st c = (None, [])).
  { apply defaults_on_empty_table; [|done..].
    intros f ->. apply (Hno f). left. }
  assert (Hstep : loop_body (with_defaults strip_punct full) st c = st).
  { unfold loop_body. rewrite Hd. destruct st; cbn in *. by subst. }
  rewrite run_cons. cbn [resolution_log length replicate]. rewrite Hstep.
  destruct (IH st) as [-> ->]; try done.
  - intros f Hf. apply (Hno f). by right.
  - by rewrite Hl.
Qed.

(** *** Lists start with a Full mention *)

Lemma head_app_nonempty {A} (l k : list A) : l ≠ [] → head (l ++ k) = head l.
Proof. by destruct l. Qed.

Lemma anchored_initial (full : FullCitation → R) : anchored full initial_state.
Proof.
  split_and!.
  - intros r. by cbn.
  - intros f r []%elem_of_nil.
  - intros r. by cbn.
Qed.

Lemma anchored_step (strip_punct : string → string) (full : FullCitation → R) st c :
  anchored full st →
  anchored full (loop_body (with_defaults strip_punct full) st c).
Proof.
  set (rs := with_defaults strip_punct full).
  intros (I1 & I2 & I3).
  assert (Hkeep : ∀ r, group r (resolutions st) ≠ [] →
            group r (resolutions (loop_body rs st c)) ≠ []).
  { intros r Hr. rewrite group_loop_body. by intros [? _]%app_nil. }
  (* a resolution that is recorded under a list that was empty comes from a
     Full mention *)
  assert (Hnew : ∀ r, (dispatch rs st c).1 = Some r → resource_truthy r = true →
            group r (resolutions st) = [] → ∃ f, c = Full f ∧ full f = r).
  { intros r Hd Ht Hempty. destruct c as [f|s|s|i|o]; cbn in Hd.
    - exists f. split; congruence.
    - apply shortcase_Some_case in Hd as [c' Hc']. by destruct (I2 _ _ Hc' Ht).
    - apply supra_Some_case in Hd as [c' Hc']. by destruct (I2 _ _ Hc' Ht).
    - by destruct (I3 _ Hd Ht).
    - done. }
  assert (Hrec : ∀ r, (dispatch rs st c).1 = Some r → resource_truthy r = true →
            group r (resolutions (loop_body rs st c)) ≠ []).
  { intros r Hd Ht. rewrite group_loop_body, decide_True by by apply outcome_Some.
    by intros [_ ?]%app_nil. }
  split_and!.
  - intros r Hr. rewrite group_loop_body in Hr |- *.
    destruct (decide (group r (resolutions st) = [])) as [Hempty|Hne].
    + rewrite Hempty in Hr |- *. cbn [app] in Hr |- *.
      case_decide as Ho; [|done]. apply outcome_Some in Ho as [Hd Ht].
      destruct (Hnew r Hd Ht Hempty) as (f & -> & Hf). by exists f.
    + rewrite head_app_nonempty by done. by apply I1.
  - intros f r Hin Ht. rewrite loop_body_table in Hin.
    destruct c as [f0|s|s|i|o]; cbn [dispatch snd] in Hin;
      try (by apply Hkeep, (I2 f r)).
    apply elem_of_set_inv in Hin as [[-> ->]|Hin]; [|by apply Hkeep, (I2 f r)].
    by apply Hrec.
  - intros r Hl Ht. rewrite loop_body_last in Hl. by apply Hrec.
Qed.

Lemma anchored_run (strip_punct : string → string) (full : FullCitation → R) st cs :
  anchored full st →
  anchored full (run (with_defaults strip_punct full) st cs).
Proof.
  revert st. induction cs as [|c cs IH]; intros st Hst; [done|].
  rewrite run_cons. by apply IH, anchored_step.
Qed.

End more_engine_facts.

(** * Further statements about the code *)

(** X2: the antecedent matcher and the default short-form and supra
    resolvers depend on the set of (full citation, resource) pairs they are
    given only: neither the order of the pairs nor a repeated pair changes
    the result. *)
Theorem X2_table_order_irrelevant {R : Type} `{!ResourceType R}
    (strip_punct : string → string)
    (pairs1 pairs2 : list (FullCitation * R)) :
  (∀ p, p ∈ pairs1 ↔ p ∈ pairs2) →
  (∀ guess, _filter_by_matching_antecedent strip_punct pairs1 guess =
            _filter_by_matching_antecedent strip_punct pairs2 guess)
  ∧ (∀ s, _resolve_shortcase_citation strip_punct s pairs1 =
          _resolve_shortcase_citation strip_punct s pairs2)
  ∧ (∀ s, _resolve_supra_citation strip_punct s pairs1 =
          _resolve_supra_citation strip_punct s pairs2).
Proof.
  intros Hset. split_and!.
  - intros guess. by apply filter_by_matching_antecedent_set.
  - intros s. by apply shortcase_set.
  - intros s. by apply supra_set.
Qed.

Lemma X2_table_order_irrelevant_witness :
  let pairs1 := [(Samples.smith_a, 1); (Samples.foo_bar, 2)] in
  let pairs2 := [(Samples.foo_bar, 2); (Samples.smith_a, 1); (Samples.foo_bar, 2)] in
  (∀ guess, _filter_by_matching_antecedent PyStr.strip_punct pairs1 guess =
            _filter_by_matching_antecedent PyStr.strip_punct pairs2 guess)
  ∧ (∀ s, _resolve_shortcase_citation PyStr.strip_punct s pairs1 =
          _resolve_shortcase_citation PyStr.strip_punct s pairs2)
  ∧ (∀ s, _resolve_supra_citation PyStr.strip_punct s pairs1 =
          _resolve_supra_citation PyStr.strip_punct s pairs2).
Proof.
  apply (X2_table_order_irrelevant PyStr.strip_punct
           [(Samples.smith_a, 1); (Samples.foo_bar, 2)]
           [(Samples.foo_bar, 2); (Samples.smith_a, 1); (Samples.foo_bar, 2)]).
  intros p. rewrite !elem_of_cons, !elem_of_nil. tauto.
Defined.

(** X3: whatever the guess, the default short-form resolver only resolves
    to the resource of a table entry whose Full mention is of the case
    subtype and has the short mention's corrected reporter and volume
    token. *)
Theorem X3_shortcase_sound {R : Type} `{!ResourceType R}
    (strip_punct : string → string)
    (s : ShortCaseCitation) (table : list (FullCitation * R)) (r : R) :
  _resolve_shortcase_citation strip_punct s table = Some r →
  ∃ c, (FullCase c, r) ∈ table ∧
       corrected_reporter s = corrected_reporter c ∧
       groups s !! "volume" = groups c !! "volume".
Proof.
  intros Hres. apply shortcase_Some_iff in Hres.
  assert (∃ f, (f, r) ∈ shortcase_candidates s table) as [f Hf].
  { destruct Hres as [[(f & Hin & _) _]|(_ & g & _ & [(f & Hin & _) _])];
      by exists f. }
  apply elem_of_shortcase_candidates in Hf as [Hin (c & -> & Hrep & Hvol)].
  by exists c.
Qed.

Lemma X3_shortcase_sound_witness :
  ∃ c, (FullCase c, 1) ∈ [(Samples.smith_a, 1); (Samples.smith_b, 2)] ∧
       corrected_reporter (Samples.cite 2 "U.S." (Some "1")
                             {| antecedent_guess := None |}) =
         corrected_reporter c ∧
       groups (Samples.cite 2 "U.S." (Some "1") {| antecedent_guess := None |})
         !! "volume" = groups c !! "volume".
Proof.
  apply (X3_shortcase_sound PyStr.strip_punct
           (Samples.cite 2 "U.S." (Some "1") {| antecedent_guess := None |})
           [(Samples.smith_a, 1); (Samples.smith_b, 2)] 1).
  by vm_compute.
Defined.

(** X4: after any input the table of full citations holds exactly the Full
    mentions of the input, each once and in the order of their first
    occurrence, every one mapped to what the full resolver returns for it;
    mentions of the other kinds add nothing to it. *)
Theorem X4_full_table {R : Type} `{!ResourceType R} (rs : Resolvers R)
    (cs : list CitationBase) :
  let table := resolved_full_cites (run rs initial_state cs) in
  Dict.keys table = first_occurrences (full_citations cs)
  ∧ NoDup (Dict.keys table)
  ∧ (∀ f r, (f, r) ∈ table ↔ Full f ∈ cs ∧ r = resolve_full rs f)
  ∧ (∀ f, Dict.get f table = None ↔ Full f ∉ cs).
Proof.
  intros table. subst table. split_and!.
  - apply keys_table_run.
  - apply table_run_NoDup. cbn. apply NoDup_nil_2.
  - intros f r. apply table_initial_elem_of.
  - intros f. rewrite table_run_get. case_decide as Hf; cbn.
    + split; [done | intros Hnot; by destruct Hnot].
    + done.
Qed.

(** X6: with the default short-form, supra and Id resolvers, an input
    without any Full mention resolves nothing: every mention is unresolved
    and the returned grouping is empty. *)
Theorem X6_no_full_nothing_resolves {R : Type} `{!ResourceType R}
    (strip_punct : string → string) (full : FullCitation → R)
    (cs : list CitationBase) :
  (∀ f, Full f ∉ cs) →
  resolve_citations (with_defaults strip_punct full) cs = []
  ∧ resolution_log (with_defaults strip_punct full) initial_state cs =
    replicate (length cs) None.
Proof.
  intros Hno. unfold resolve_citations.
  destruct (run_without_full strip_punct full initial_state cs Hno eq_refl eq_refl)
    as [Hrun Hlog].
  by rewrite Hrun, Hlog.
Qed.

Lemma X6_no_full_nothing_resolves_witness :
  let cs := [Samples.short_citation 0 "U.S." "1" (Some "Smith");
             Samples.supra_citation 1 (Some "Smith");
             Samples.id_citation 2; Samples.nonopinion_citation 3] in
  resolve_citations Samples.defaults cs = []
  ∧ resolution_log Samples.defaults initial_state cs = replicate (length cs) None.
Proof.
  apply (X6_no_full_nothing_resolves PyStr.strip_punct resolve_full_citation).
  intros f Hin. rewrite !elem_of_cons, elem_of_nil in Hin.
  by destruct Hin as [?|[?|[?|[?|?]]]].
Defined.

(** X7: with the default Id resolver, every Id mention of an unbroken run
    of Id mentions gets the resolution of the mention just before the run. *)
Theorem X7_id_run {R : Type} `{!ResourceType R} (rs : Resolvers R)
    (xs : list CitationBase) (c : CitationBase) (ids ys : list CitationBase) :
  resolve_id rs = _resolve_id_citation →
  Forall (λ m, is_Id m = true) ids →
  let log := resolution_log rs initial_state (xs ++ c :: ids ++ ys) in
  ∃ res, log !! length xs = Some res ∧
         take (length ids) (drop (S (length xs)) log) =
         replicate (length ids) res.
Proof.
  intros Hid Hids log. subst log.
  exists (dispatch rs (run rs initial_state xs) c).1.
  split; [apply log_at_split|].
  rewrite log_app. cbn [resolution_log].
  rewrite (log_id_run rs _ ids ys Hid Hids), loop_body_last.
  assert (Hlen : length (resolution_log rs initial_state xs) = length xs)
    by apply length_log.
  rewrite <- Hlen at 1.
  rewrite cons_middle, app_assoc.
  rewrite drop_app_length' by (rewrite length_app; cbn; lia).
  rewrite take_app_length'; [done | by rewrite length_replicate].
Qed.

Lemma X7_id_run_witness :
  let log := resolution_log Samples.defaults initial_state
               ([Samples.nonopinion_citation 0] ++ Full Samples.lissner ::
                [Samples.id_citation 2; Samples.id_citation 3] ++
                [Full Samples.smith_b]) in
  ∃ res, log !! 1 = Some res ∧
         take 2 (drop 2 log) = replicate 2 res.
Proof.
  apply (X7_id_run Samples.defaults [Samples.nonopinion_citation 0]
           (Full Samples.lissner)
           [Samples.id_citation 2; Samples.id_citation 3]
           [Full Samples.smith_b] eq_refl).
  repeat constructor.
Defined.

(** X8: with the default Id resolver, the Id mentions at the very start of
    the input, which have no mention before them, are unresolved. *)
Theorem X8_leading_ids_unresolved {R : Type} `{!ResourceType R} (rs : Resolvers R)
    (cs : list CitationBase) :
  resolve_id rs = _resolve_id_citation →
  take (leading_ids cs) (resolution_log rs initial_state cs) =
  replicate (leading_ids cs) None.
Proof.
  intros Hid.
  rewrite (log_after_failure rs initial_state initial_state cs Hid eq_refl eq_refl).
  rewrite take_app_length'; [done | by rewrite length_replicate].
Qed.

Lemma X8_leading_ids_unresolved_witness :
  let cs := [Samples.id_citation 0; Samples.id_citation 1; Full Samples.lissner;
             Samples.id_citation 3] in
  take (leading_ids cs) (resolution_log Samples.defaults initial_state cs) =
  replicate (leading_ids cs) None.
Proof.
  exact (X8_leading_ids_unresolved Samples.defaults
           [Samples.id_citation 0; Samples.id_citation 1; Full Samples.lissner;
            Samples.id_citation 3] eq_refl).
Defined.

(** X9: with the default short-form, supra and Id resolvers, every list of
    the returned grouping starts with a Full mention of the input that the
    full resolver maps to the key of the list; the keys are exactly the
    truthy resources of the Full mentions of the input. *)
Theorem X9_lists_start_with_full {R : Type} `{!ResourceType R}
    (strip_punct : string → string) (full : FullCitation → R)
    (cs : list CitationBase) :
  let out := resolve_citations (with_defaults strip_punct full) cs in
  (∀ r l, (r, l) ∈ out →
     ∃ f, head l = Some (Full f) ∧ full f = r ∧ Full f ∈ cs)
  ∧ (∀ r, r ∈ Dict.keys out ↔
          resource_truthy r = true ∧ ∃ f, Full f ∈ cs ∧ full f = r).
Proof.
  intros out. set (rs := with_defaults strip_punct full).
  pose proof (anchored_run strip_punct full initial_state cs
                (anchored_initial full)) as (I1 & _ & _).
  pose proof (resolve_citations_entry rs cs) as Hentry.
  assert (Hhead : ∀ r l, (r, l) ∈ out →
            ∃ f, head l = Some (Full f) ∧ full f = r ∧ Full f ∈ cs).
  { intros r l Hin. pose proof Hin as [Hl Hne]%Hentry.
    assert (l = group r (resolutions (run rs initial_state cs))) as Hg.
    { apply (grouping_wf_elem_of r l _ (resolve_citations_wf rs cs)) in Hin.
      apply Hin. }
    specialize (I1 r). fold rs in I1. rewrite <- Hg in I1.
    destruct (I1 Hne) as (f & Hf & Hr).
    exists f. split_and!; [done..|].
    assert (Full f ∈ l) as Hfl.
    { destruct l as [|c0 l]; [done|]. cbn in Hf. injection Hf as ->. left. }
    rewrite Hl in Hfl. eapply elem_of_sublist; [done | apply resolved_to_sublist]. }
  split; [done|]. intros r. split.
  - intros ([r' l] & -> & Hin)%list_elem_of_fmap. cbn.
    destruct (Hhead _ _ Hin) as (f & Hf & Hr & Hfc). split; [|by exists f].
    pose proof Hin as [Hl Hne]%Hentry.
    destruct l as [|c0 l]; [done|].
    assert (c0 ∈ resolved_to r' cs (resolution_log rs initial_state cs)) as Hc0
      by (rewrite <- Hl; left).
    apply elem_of_resolved_to in Hc0 as (i & res & _ & _ & Ho).
    by apply outcome_Some in Ho as [_ ?].
  - intros [Ht (f & Hf & <-)].
    apply list_elem_of_lookup in Hf as [i Hi].
    assert (Full f ∈ resolved_to (full f) cs (resolution_log rs initial_state cs))
      as Hin.
    { apply elem_of_resolved_to. exists i, (Some (full f)).
      split_and!; [done | by rewrite (log_lookup _ _ _ _ _ Hi) |].
      by apply outcome_Some. }
    apply list_elem_of_fmap.
    exists (full f, resolved_to (full f) cs (resolution_log rs initial_state cs)).
    split; [done|]. apply Hentry. split; [done|].
    intros Hnil. rewrite Hnil in Hin. by apply elem_of_nil in Hin.
Qed.

(** X10: with the default short-form, supra and Id resolvers, whatever a
    mention resolves to is what the full resolver returns for a Full
    mention that stands at or before it in the input: no resolution refers
    forward, and none is made up. *)
Theorem X10_resolutions_look_back {R : Type} `{!ResourceType R}
    (strip_punct : string → string) (full : FullCitation → R)
    (cs : list CitationBase) (i : nat) (r : R) :
  resolution_log (with_defaults strip_punct full) initial_state cs !! i =
    Some (Some r) →
  ∃ f, Full f ∈ take (S i) cs ∧ full f = r.
Proof.
  set (rs := with_defaults strip_punct full).
  assert (Hlast : ∀ xs r', last_resolution (run rs initial_state xs) = Some r' →
            ∃ f, Full f ∈ xs ∧ full f = r').
  { induction xs as [|c xs IH] using rev_ind; intros r' Hl; [done|].
    rewrite run_snoc, loop_body_last in Hl.
    assert (Htable : ∀ c', (FullCase c', r') ∈
                             resolved_full_cites (run rs initial_state xs) →
              ∃ f, Full f ∈ xs ++ [c] ∧ full f = r').
    { intros c' [Hin ->]%table_initial_elem_of. exists (FullCase c').
      split; [|done]. apply elem_of_app. by left. }
    destruct c as [f|s|s|d|o]; cbn in Hl.
    - exists f. split; [|congruence]. apply elem_of_app. right. left.
    - apply shortcase_Some_case in Hl as [c' Hc']. by apply (Htable c').
    - apply supra_Some_case in Hl as [c' Hc']. by apply (Htable c').
    - destruct (IH r' Hl) as (f & Hf & Hr). exists f. split; [|done].
      apply elem_of_app. by left.
    - done. }
  intros Hlog.
  assert (is_Some (cs !! i)) as [c Hc].
  { apply lookup_lt_is_Some. apply lookup_lt_Some in Hlog.
    by rewrite length_log in Hlog. }
  rewrite (log_lookup_last _ _ _ _ _ Hc) in Hlog. injection Hlog as Hlog.
  by apply Hlast.
Qed.

Lemma X10_resolutions_look_back_witness :
  ∃ f, Full f ∈ take 2 [Full Samples.foo_bar;
                        Samples.supra_citation 1 (Some "Foo");
                        Full Samples.smith_b]
       ∧ resolve_full_citation f = resolve_full_citation Samples.foo_bar.
Proof.
  apply (X10_resolutions_look_back PyStr.strip_punct resolve_full_citation
           [Full Samples.foo_bar; Samples.supra_citation 1 (Some "Foo");
            Full Samples.smith_b] 1 (resolve_full_citation Samples.foo_bar)).
  by vm_compute.
Defined.
